(** * lemma_token_builder.py: text extraction, tokenizer, lemma aggregation

    A shallow embedding of [src/lemma_token_builder.py].  Python [str]
    values are lists of Unicode code points ([N]); [set] and [dict] are
    stdpp's [gset] and [gmap]; the run of [main] is a function from the
    environment it reads (the pages directory) to the files it writes. *)

From Stdlib Require Import NArith ZArith List String Ascii Lia.
From stdpp Require Import base decidable list sorting gmap strings.
Import ListNotations.

Local Open Scope N_scope.

(** ** Strings *)

(** A Python [str]: a sequence of code points. *)
Abbreviation str := (list N).

(** Literals of this file are written as UTF-8 text; [utf8] reads the bytes
    of such a literal back into code points.  [need] is the number of
    continuation bytes still expected and [acc] the bits read so far. *)
Fixpoint utf8_decode (need : nat) (acc : N) (bs : list N) : str :=
  match bs with
  | [] => []
  | b :: bs' =>
      match need with
      | O =>
          if b <? 0x80 then b :: utf8_decode 0 0 bs'
          else if b <? 0xE0 then utf8_decode 1 (b - 0xC0) bs'
          else if b <? 0xF0 then utf8_decode 2 (b - 0xE0) bs'
          else utf8_decode 3 (b - 0xF0) bs'
      | S k =>
          let acc' := acc * 64 + (b - 0x80) in
          match k with
          | O => acc' :: utf8_decode 0 0 bs'
          | S _ => utf8_decode k acc' bs'
          end
      end
  end.

Definition utf8 (s : string) : str :=
  utf8_decode 0 0 (map N_of_ascii (list_ascii_of_string s)).

(** Python's comparison of two [str] values: lexicographic on code points,
    a proper prefix being smaller. [sorted] uses it. *)
Fixpoint str_leb (a b : str) : bool :=
  match a, b with
  | [], _ => true
  | _ :: _, [] => false
  | x :: a', y :: b' =>
      if x <? y then true else if y <? x then false else str_leb a' b'
  end.

Definition str_le (a b : str) : Prop := str_leb a b = true.
Definition str_lt (a b : str) : Prop := str_leb b a = false.

#[global] Instance str_le_dec (a b : str) : Decision (str_le a b) :=
  decide (str_leb a b = true).

(** [sorted(xs)] on strings. *)
Definition sorted (xs : list str) : list str := merge_sort str_le xs.

(** [sep.join(parts)]. *)
Fixpoint join (sep : str) (parts : list str) : str :=
  match parts with
  | [] => []
  | [p] => p
  | p :: rest => p ++ sep ++ join sep rest
  end.

(** ** Character tables of the runtime *)

Definition in_range (lo hi c : N) : bool := (lo <=? c) && (c <=? hi).

(** Simple lowercase mapping of one code point, as [str.lower] and the
    regex engine use it.  It is tabulated on Basic Latin and on the
    capitals of the Cyrillic block (U+0400..U+042F); no other code point
    lowercases to a character of the word pattern below. *)
Definition tolower (c : N) : N :=
  if in_range 0x41 0x5A c then c + 0x20
  else if in_range 0x410 0x42F c then c + 0x20
  else if in_range 0x400 0x40F c then c + 0x50
  else c.

(** [text.lower()]. *)
Definition lower (s : str) : str := map tolower s.

(** ** RE_RU_WORD = re.compile(r"[а-яё]{2,}", re.IGNORECASE) *)

(** The class as it is written: the range а..я and the letter ё. *)
Definition ru_class (c : N) : bool := in_range 0x430 0x44F c || (c =? 0x451).

(** Under IGNORECASE the engine also admits, for a member of the class, the
    other lowercase letters that share its uppercase: the pairs below are
    the entries of the engine's case table whose first component lies in
    the class (в, д, о, с, т, ъ and their variants U+1C80..U+1C86). *)
Definition EXTRA_CASES : list (N * N) :=
  [ (0x432, 0x1C80); (0x434, 0x1C81); (0x43E, 0x1C82); (0x441, 0x1C83);
    (0x442, 0x1C84); (0x442, 0x1C85); (0x44A, 0x1C86) ].

(** The compiled character map: lowercased members of the class and their
    entries in [EXTRA_CASES]. *)
Definition charmap (k : N) : bool :=
  ru_class k
  || existsb (fun iv => ru_class (tolower (fst iv)) && (snd iv =? k)) EXTRA_CASES.

(** A character matches the class when its lowercase is in the map. *)
Definition ru_char (c : N) : bool := charmap (tolower c).

(** The 33 lowercase letters а..я, ё. *)
Definition ru_lower33 (c : N) : bool := ru_class c.

(** [emit run]: a run of class characters is a match when it has at least
    two of them ([{2,}]). *)
Definition emit (run : str) : list str :=
  if (2 <=? length run)%nat then [run] else [].

(** [RE_RU_WORD.findall(text)]: the scan keeps in [run] the class characters
    read since the last character outside the class; the quantifier is
    greedy, so a run is closed only by such a character or by the end of
    the text. *)
Fixpoint findall_from (run : str) (text : str) : list str :=
  match text with
  | [] => emit run
  | c :: text' =>
      if ru_char c then findall_from (run ++ [c]) text'
      else emit run ++ findall_from [] text'
  end.

Definition RE_RU_WORD_findall (text : str) : list str := findall_from [] text.

(** [RE_RU_WORD.fullmatch(s)] as a truth value. *)
Definition RE_RU_WORD_fullmatch (s : str) : bool :=
  forallb ru_char s && (2 <=? length s)%nat.

(** ** tokenize *)

Definition len_ok (t : str) : bool :=
  ((2 <=? length t) && (length t <=? 40))%nat.

Definition tokenize (text : str) : list str :=
  let text := lower text in
  let tokens := RE_RU_WORD_findall text in
  List.filter len_ok tokens.

(** ** HTMLTextExtractor *)

(** The callbacks [HTMLParser.feed] makes while it scans a page, in order.
    The attributes of a start tag are not used by the extractor and are left
    out. *)
Inductive event : Type :=
| starttag (tag : str)
| endtag (tag : str)
| data (d : str).

(** The extractor object: the fragments kept so far and the skip counter, a
    Python [int]. *)
Record HTMLTextExtractor : Type := mkExtractor {
  _parts : list str;
  _skip : Z
}.

(** [__init__]. *)
Definition init : HTMLTextExtractor := mkExtractor [] 0.

(** The tuple [("script", "style", "noscript")]. *)
Definition skip_tags : list str := [utf8 "script"; utf8 "style"; utf8 "noscript"].

Definition is_skip_tag (t : str) : bool := bool_decide (t ∈ skip_tags).

Definition handle_starttag (self : HTMLTextExtractor) (tag : str) : HTMLTextExtractor :=
  let t := lower tag in
  if is_skip_tag t then mkExtractor (_parts self) (_skip self + 1) else self.

Definition handle_endtag (self : HTMLTextExtractor) (tag : str) : HTMLTextExtractor :=
  let t := lower tag in
  if is_skip_tag t && (0 <? _skip self)%Z
  then mkExtractor (_parts self) (_skip self - 1) else self.

(** A Python [str] is true when it is not empty. *)
Definition nonempty (d : str) : bool := negb (Nat.eqb (length d) 0).

Definition handle_data (self : HTMLTextExtractor) (d : str) : HTMLTextExtractor :=
  if (_skip self =? 0)%Z && nonempty d
  then mkExtractor (_parts self ++ [d]) (_skip self) else self.

Definition get_text (self : HTMLTextExtractor) : str := join (utf8 " ") (_parts self).

Definition handle (self : HTMLTextExtractor) (e : event) : HTMLTextExtractor :=
  match e with
  | starttag tag => handle_starttag self tag
  | endtag tag => handle_endtag self tag
  | data d => handle_data self d
  end.

(** The extractor after the parser has made the callbacks [evs]. *)
Definition feed (self : HTMLTextExtractor) (evs : list event) : HTMLTextExtractor :=
  fold_left handle evs self.

(** The text of a page whose callbacks are [evs]. *)
Definition text_of_events (evs : list event) : str := get_text (feed init evs).

(** The skip counter along a page: entering one of the three tags adds
    one, leaving one takes one off, except that a counter at 0 stays at 0
    (the test of line 55); text does not change it. *)
Definition next_depth (k : Z) (e : event) : Z :=
  match e with
  | starttag t => if is_skip_tag (lower t) then (k + 1)%Z else k
  | endtag t => if is_skip_tag (lower t) && (0 <? k)%Z then (k - 1)%Z else k
  | data _ => k
  end.

(** The visible fragments of a stretch of callbacks read at depth [k]: the
    texts, other than empty ones, that arrive while the depth is 0. *)
Fixpoint visible (k : Z) (evs : list event) : list str :=
  match evs with
  | [] => []
  | data d :: evs' =>
      if (k =? 0)%Z && nonempty d then d :: visible k evs' else visible k evs'
  | e :: evs' => visible (next_depth k e) evs'
  end.

(** A stretch of callbacks in which every closing skip tag has its opening
    one: [depth] is the number of skip elements open at its start. *)
Fixpoint balanced (depth : nat) (evs : list event) : bool :=
  match evs with
  | [] => Nat.eqb depth 0
  | starttag t :: evs' =>
      if is_skip_tag (lower t) then balanced (S depth) evs' else balanced depth evs'
  | endtag t :: evs' =>
      if is_skip_tag (lower t)
      then match depth with O => false | S d => balanced d evs' end
      else balanced depth evs'
  | data _ :: evs' => balanced depth evs'
  end.

Section Extractor.
(** [HTMLParser]'s scanner, a class of the standard library: the callbacks
    it makes on a page. *)
Variable scan : str -> list event.

Definition html_to_text (html : str) : str :=
  let parser := init in
  let parser := feed parser (scan html) in
  get_text parser.

End Extractor.

(** A scanner for plain markup, for the examples: [<name>] and [</name>]
    without attributes, everything else text.  [txt] is the text read since
    the last tag, and [tag] the tag being read, if any, with [true] for a
    closing one. *)
Fixpoint simple_scan_from (txt : str) (tag : option (bool * str)) (html : str)
  : list event :=
  let flush := if nonempty txt then [data txt] else [] in
  match html with
  | [] => flush
  | c :: html' =>
      match tag with
      | None =>
          if c =? 0x3C then flush ++ simple_scan_from [] (Some (false, [])) html'
          else simple_scan_from (txt ++ [c]) None html'
      | Some (closing, name) =>
          if c =? 0x3E then
            (if closing then endtag (lower name) else starttag (lower name))
            :: simple_scan_from [] None html'
          else if (c =? 0x2F) && negb closing && Nat.eqb (length name) 0 then
            simple_scan_from [] (Some (true, [])) html'
          else simple_scan_from [] (Some (closing, name ++ [c])) html'
      end
  end.

Definition simple_scan (html : str) : list event := simple_scan_from [] None html.

(** ** The lemma filter and aggregator (lines 105-135 of [main]) *)

(** One result of [morph.parse]: [p.tag.POS], which is a tag name or
    [None], and [p.normal_form]. *)
Record Parse : Type := mkParse {
  POS : option string;
  normal_form : str
}.

Definition bad_pos : list string := ["PREP"; "CONJ"; "PRCL"; "INTJ"]%string.

(** [pos in bad_pos]. *)
Definition in_bad_pos (pos : option string) : bool :=
  match pos with
  | Some tag => existsb (String.eqb tag) bad_pos
  | None => false
  end.

(** The two containers the loop fills. *)
Record Agg : Type := mkAgg {
  tokens_set : gset str;
  lemma_to_tokens : gmap str (gset str)
}.

Definition empty_agg : Agg := mkAgg ∅ ∅.

(** The test on line 128. *)
Definition lemma_rejected (lemma : str) : bool :=
  negb (RE_RU_WORD_fullmatch lemma) || negb (len_ok lemma).

(** Lines 131-135: the token is recorded. *)
Definition record_token (st : Agg) (lemma tok : str) : Agg :=
  let tokens_set := {[tok]} ∪ tokens_set st in
  let m := lemma_to_tokens st in
  let m := match m !! lemma with
           | None => <[lemma := ∅]> m
           | Some _ => m
           end in
  let m := alter (fun s => {[tok]} ∪ s) lemma m in
  mkAgg tokens_set m.

Section Aggregator.
(** [ch.isdigit()] for one character, from the runtime's Unicode tables. *)
Variable isdigit : N -> bool.
(** [morph.parse], the analyzer loaded on lines 88-89. *)
Variable morph_parse : str -> list Parse.

(** [any(ch.isdigit() for ch in tok)]. *)
Definition has_digit (tok : str) : bool := existsb isdigit tok.

(** The filters of the specification, in its order: [accept tok] is the
    lemma under which [tok] is recorded, or [None] when a filter rejects
    it. *)
Definition accept (tok : str) : option str :=
  if has_digit tok then None
  else match head (morph_parse tok) with
       | None => None
       | Some top =>
           if in_bad_pos (POS top) then None
           else if RE_RU_WORD_fullmatch (normal_form top) && len_ok (normal_form top)
                then Some (normal_form top)
                else None
       end.

(** One turn of the loop on line 110; [continue] leaves the state as it
    is. *)
Definition agg_step (st : Agg) (tok : str) : Agg :=
  if has_digit tok then st
  else
    let parses := morph_parse tok in
    match parses with
    | [] => st
    | p :: _ =>
        let pos := POS p in
        let lemma := normal_form p in
        if in_bad_pos pos then st
        else if lemma_rejected lemma then st
        else record_token st lemma tok
    end.

Definition aggregate (all_tokens : list str) : Agg :=
  fold_left agg_step all_tokens empty_agg.

(** What the two containers hold once the tokens [toks] have been read:
    [tokens_set] the accepted ones, and each key of [lemma_to_tokens] the
    accepted tokens of that lemma, of which there is at least one. *)
Definition agg_inv (toks : list str) (st : Agg) : Prop :=
  (forall t, t ∈ tokens_set st <-> t ∈ toks /\ is_Some (accept t)) /\
  (forall l S, lemma_to_tokens st !! l = Some S ->
     S <> ∅ /\ forall t, t ∈ S <-> t ∈ toks /\ accept t = Some l) /\
  (forall t l, t ∈ toks -> accept t = Some l -> is_Some (lemma_to_tokens st !! l)).

(** The same turn without the test of line 112. *)
Definition agg_step_nodigit (st : Agg) (tok : str) : Agg :=
  match morph_parse tok with
  | [] => st
  | p :: _ =>
      if in_bad_pos (POS p) then st
      else if lemma_rejected (normal_form p) then st
      else record_token st (normal_form p) tok
  end.

End Aggregator.

(** ** The output files (lines 138-147) *)

Definition NL : str := [0x0A].
Definition SP : str := utf8 " ".

Definition tokens_list (st : Agg) : list str := sorted (elements (tokens_set st)).

Definition tokens_file (st : Agg) : str :=
  concat (map (fun t => t ++ NL) (tokens_list st)).

(** [sorted(lemma_to_tokens.keys())]. *)
Definition lemma_keys (st : Agg) : list str :=
  sorted (map fst (map_to_list (lemma_to_tokens st))).

(** [sorted(lemma_to_tokens[lemma])]. *)
Definition lemma_toks (st : Agg) (lemma : str) : list str :=
  sorted (elements (lemma_to_tokens st !!! lemma)).

Definition lemma_line (st : Agg) (lemma : str) : str :=
  lemma ++ SP ++ join SP (lemma_toks st lemma) ++ NL.

Definition lemmas_file (st : Agg) : str :=
  concat (map (lemma_line st) (lemma_keys st)).

(** ** main *)

Definition PAGES_DIR : string := "pages".
Definition TOKENS_OUT : string := "tokens.txt".
Definition LEMMAS_OUT : string := "lemmas.txt".

(** What the run reads: whether [pages/] is a directory, the paths
    [glob] finds for [pages/*.txt], and the decoded text of each file. *)
Record Env : Type := mkEnv {
  isdir : bool;
  glob : list str;
  read : str -> str
}.

Inductive exn : Type :=
| FileNotFoundError (msg : string).

Definition no_dir_msg : string :=
  ("Нет папки " ++ PAGES_DIR ++ "/ (сначала запустите краулер)")%string.
Definition no_files_msg : string :=
  ("В " ++ PAGES_DIR ++ "/ нет *.txt файлов")%string.

(** How a run ends, with the files it has written by then (name and
    content, in the order of writing). *)
Inductive outcome : Type :=
| Raised (e : exn) (written : list (string * str))
| Finished (written : list (string * str)).

(** The status of the process: an exception no one catches ends it with 1. *)
Definition exit_status (o : outcome) : Z :=
  match o with
  | Raised _ _ => 1
  | Finished _ => 0
  end.

Definition written (o : outcome) : list (string * str) :=
  match o with
  | Raised _ w => w
  | Finished w => w
  end.

Section Main.
(** The three collaborators of the run: [HTMLParser]'s scanner, the
    runtime's [str.isdigit], and the analyzer built on lines 88-89, whose
    construction is taken to succeed. *)
Variable scan : str -> list event.
Variable isdigit : N -> bool.
Variable morph_parse : str -> list Parse.

(** Lines 97-101. *)
Definition collect (files : list str) (env : Env) : list str :=
  flat_map (fun path => tokenize (html_to_text scan (read env path))) files.

(** [main]; the summary it prints at the end (lines 149-151) is left out. *)
Definition main (env : Env) : outcome :=
  if negb (isdir env) then Raised (FileNotFoundError no_dir_msg) []
  else
    let files := sorted (glob env) in
    match files with
    | [] => Raised (FileNotFoundError no_files_msg) []
    | _ :: _ =>
        let all_tokens := collect files env in
        let st := aggregate isdigit morph_parse all_tokens in
        Finished [ (TOKENS_OUT, tokens_file st); (LEMMAS_OUT, lemmas_file st) ]
    end.

End Main.

(** ** Data for the examples *)

(** ASCII digits only: enough for texts without other digits. *)
Definition ascii_isdigit (c : N) : bool := in_range 0x30 0x39 c.

(** A scripted analyzer: "во" is a preposition, "мира" and "миру" are
    forms of "мир" (with a second, lower-ranked parse as a particle), "шёл"
    has the lemma "идти", "эх" gets no part of speech and a lemma that is
    not a word, "ъъ" has no parse, and anything else is a noun that is its
    own lemma. *)
Definition toy_parse (tok : str) : list Parse :=
  if bool_decide (tok = utf8 "ъъ") then []
  else if bool_decide (tok = utf8 "во") then [mkParse (Some "PREP"%string) tok]
  else if bool_decide (tok ∈ [utf8 "мира"; utf8 "миру"])
       then [mkParse (Some "NOUN"%string) (utf8 "мир"); mkParse (Some "PRCL"%string) tok]
  else if bool_decide (tok = utf8 "шёл") then [mkParse (Some "VERB"%string) (utf8 "идти")]
  else if bool_decide (tok = utf8 "эх") then [mkParse None (utf8 "x1")]
  else [mkParse (Some "NOUN"%string) tok].

(** The page of the scenario and the callbacks the parser makes on it. *)
Definition scenario_page : str := utf8 "<script>мусор123</script><p>Привет мир</p>".

Definition scenario_events : list event :=
  [ starttag (utf8 "script"); data (utf8 "мусор123"); endtag (utf8 "script");
    starttag (utf8 "p"); data (utf8 "Привет мир"); endtag (utf8 "p") ].

(** Two pages, found by [glob] in an order that is not the sorted one. *)
Definition toy_env : Env :=
  mkEnv true [utf8 "pages/2.txt"; utf8 "pages/1.txt"]
    (fun path => if bool_decide (path = utf8 "pages/1.txt") then scenario_page
                 else utf8 "<p>Миру мир, во 2 шёл</p><style>p {}</style>").

(** The same pages found in the other order. *)
Definition toy_env' : Env :=
  mkEnv true [utf8 "pages/1.txt"; utf8 "pages/2.txt"] (read toy_env).

(** ** Definitions for the further properties *)

(** A callback the extractor reacts to: text, or one of the three tags. *)
Definition relevant (e : event) : bool :=
  match e with
  | data _ => true
  | starttag t => is_skip_tag (lower t)
  | endtag t => is_skip_tag (lower t)
  end.

(** A closing script, style or noscript tag. *)
Definition closes_skip (e : event) : bool :=
  match e with
  | endtag t => is_skip_tag (lower t)
  | _ => false
  end.

(** [st'] holds all that [st] holds: the tokens of its set, its keys, and
    under each key the tokens it had. *)
Definition agg_le (st st' : Agg) : Prop :=
  tokens_set st ⊆ tokens_set st' /\
  forall l S, lemma_to_tokens st !! l = Some S ->
    exists S', lemma_to_tokens st' !! l = Some S' /\ S ⊆ S'.

(** The two numbers of the summary: [len(tokens_list)] on line 150 and
    [len(lemma_to_tokens)] on line 151. *)
Definition summary_counts (st : Agg) : nat * nat :=
  (length (tokens_list st), size (lemma_to_tokens st)).

(** [s.split(sep)] for a separator of one character, as a reader of the
    two files would use it: [field] is the field being read. *)
Fixpoint split_from (sep : N) (field : str) (s : str) : list str :=
  match s with
  | [] => [field]
  | c :: s' =>
      if c =? sep then field :: split_from sep [] s'
      else split_from sep (field ++ [c]) s'
  end.

Definition split (sep : N) (s : str) : list str := split_from sep [] s.

(** * Properties *)

(** ** Order on strings *)

Lemma str_leb_refl (a : str) : str_leb a a = true.
Proof.
  induction a as [|x a IH]; simpl; [reflexivity|].
  rewrite N.ltb_irrefl. exact IH.
Qed.

Lemma str_le_total : Total str_le.
Proof.
  intros a. induction a as [|x a IH]; intros [|y b]; unfold str_le in *; simpl; auto.
  destruct (N.ltb_spec x y), (N.ltb_spec y x); auto; lia.
Qed.

Lemma str_le_trans : Transitive str_le.
Proof.
  intros a. induction a as [|x a IH]; intros [|y b] [|z c]; unfold str_le in *;
    simpl; auto; try discriminate.
  destruct (N.ltb_spec x y), (N.ltb_spec y x), (N.ltb_spec y z), (N.ltb_spec z y),
    (N.ltb_spec x z), (N.ltb_spec z x); auto; try lia; try discriminate.
  assert (y = z) by lia. subst. apply IH.
Qed.

Lemma str_le_antisym : AntiSymm (=) str_le.
Proof.
  intros a. induction a as [|x a IH]; intros [|y b]; unfold str_le in *;
    simpl; auto; try discriminate.
  destruct (N.ltb_spec x y), (N.ltb_spec y x); try lia; try discriminate.
  intros H1 H2. assert (x = y) by lia. subst. f_equal. auto.
Qed.

Lemma str_lt_le_ne (a b : str) : str_lt a b <-> str_le a b /\ a <> b.
Proof.
  unfold str_lt. split.
  - intros H. split.
    + destruct (str_le_total a b) as [Hab|Hba]; [exact Hab|].
      unfold str_le in Hba. congruence.
    + intros ->. rewrite str_leb_refl in H. discriminate.
  - intros [Hab Hne]. destruct (str_leb b a) eqn:Hba; [|reflexivity].
    exfalso. apply Hne. apply str_le_antisym; assumption.
Qed.

Lemma sorted_perm (xs : list str) : sorted xs ≡ₚ xs.
Proof. apply merge_sort_Permutation. Qed.

Lemma sorted_elem (xs : list str) (x : str) : x ∈ sorted xs <-> x ∈ xs.
Proof. unfold sorted. rewrite merge_sort_Permutation. reflexivity. Qed.

Lemma sorted_le (xs : list str) : StronglySorted str_le (sorted xs).
Proof.
  apply (@StronglySorted_merge_sort _ str_le _ str_le_trans str_le_total).
Qed.

(** Sorting a list without repetitions gives a strictly increasing one. *)
Lemma sorted_strict (xs : list str) : NoDup xs -> StronglySorted str_lt (sorted xs).
Proof.
  intros Hnd.
  assert (Hnd' : NoDup (sorted xs)) by (rewrite sorted_perm; exact Hnd).
  pose proof (sorted_le xs) as Hs.
  induction Hs as [|x l Hs IH Hall]; [constructor|].
  apply NoDup_cons in Hnd' as [Hx Hl].
  constructor; [apply IH; exact Hl|].
  rewrite List.Forall_forall in *. intros y Hy.
  apply str_lt_le_ne. split; [apply Hall; exact Hy|].
  intros ->. apply Hx. apply list_elem_of_In. exact Hy.
Qed.

(** Two sorted lists with the same elements are the same list. *)
Lemma sorted_unique (xs ys : list str) : xs ≡ₚ ys -> sorted xs = sorted ys.
Proof.
  intros Hp.
  apply (@Sorted_unique _ str_le str_le_trans str_le_antisym).
  - apply StronglySorted_Sorted, sorted_le.
  - apply StronglySorted_Sorted, sorted_le.
  - rewrite !sorted_perm. exact Hp.
Qed.

(** ** The character class *)

Ltac ranges :=
  unfold ru_class, in_range in *;
  try apply Bool.eq_iff_eq_true;
  rewrite ?Bool.orb_true_iff, ?Bool.andb_true_iff, ?Bool.orb_false_iff,
    ?Bool.andb_false_iff, ?N.leb_le, ?N.eqb_eq, ?N.leb_gt, ?N.eqb_neq in *;
  lia.

Lemma tolower_cases (c : N) :
  (in_range 0x41 0x5A c = true /\ tolower c = c + 0x20) \/
  (in_range 0x410 0x42F c = true /\ tolower c = c + 0x20) \/
  (in_range 0x400 0x40F c = true /\ tolower c = c + 0x50) \/
  (in_range 0x41 0x5A c = false /\ in_range 0x410 0x42F c = false /\
   in_range 0x400 0x40F c = false /\ tolower c = c).
Proof.
  unfold tolower.
  destruct (in_range 0x41 0x5A c); [auto|].
  destruct (in_range 0x410 0x42F c); [auto|].
  destruct (in_range 0x400 0x40F c); auto 10.
Qed.

Lemma tolower_fix (c : N) :
  in_range 0x41 0x5A c = false -> in_range 0x400 0x42F c = false -> tolower c = c.
Proof.
  intros H1 H2.
  destruct (tolower_cases c) as [[H E]|[[H E]|[[H E]|(_ & _ & _ & E)]]];
    [exfalso; ranges .. | exact E].
Qed.

Lemma tolower_idem (c : N) : tolower (tolower c) = tolower c.
Proof.
  destruct (tolower_cases c) as [[H E]|[[H E]|[[H E]|(H1 & H2 & H3 & E)]]];
    rewrite E; apply tolower_fix; ranges.
Qed.

(** The character map is the 33 letters and the seven variants. *)
Lemma charmap_spec (k : N) : charmap k = ru_class k || in_range 0x1C80 0x1C86 k.
Proof.
  unfold charmap, EXTRA_CASES, existsb, fst, snd.
  replace (ru_class (tolower 0x432)) with true by reflexivity.
  replace (ru_class (tolower 0x434)) with true by reflexivity.
  replace (ru_class (tolower 0x43E)) with true by reflexivity.
  replace (ru_class (tolower 0x441)) with true by reflexivity.
  replace (ru_class (tolower 0x442)) with true by reflexivity.
  replace (ru_class (tolower 0x44A)) with true by reflexivity.
  cbn [andb]. ranges.
Qed.

(** What the class matches: the 33 letters, their capitals and the seven
    variants. *)
Lemma ru_char_spec (c : N) :
  ru_char c = ru_class c || in_range 0x410 0x42F c || (c =? 0x401)
              || in_range 0x1C80 0x1C86 c.
Proof.
  unfold ru_char. rewrite charmap_spec.
  destruct (tolower_cases c) as [[H E]|[[H E]|[[H E]|(H1 & H2 & H3 & E)]]];
    rewrite E; ranges.
Qed.

(** In lowercased text the class matches the character map only. *)
Lemma ru_char_lowered (c : N) : ru_char (tolower c) = charmap (tolower c).
Proof. unfold ru_char. rewrite tolower_idem. reflexivity. Qed.

Lemma charmap_ru_char (c : N) : charmap c = true -> ru_char c = true.
Proof.
  rewrite charmap_spec, ru_char_spec. intros H. ranges.
Qed.

(** ** The tokenizer *)

Lemma emit_elem (run t : str) : t ∈ emit run -> t = run /\ (2 <= length run)%nat.
Proof.
  unfold emit. destruct (Nat.leb_spec 2 (length run)) as [Hlen|Hlen]; intros Ht.
  - apply list_elem_of_singleton in Ht. auto.
  - inversion Ht.
Qed.

(** Every match is at least two characters long, and each of its characters
    is a class character read from the run or from the text. *)
Lemma findall_from_elem (text run t : str) :
  Forall (fun c => ru_char c = true) run ->
  t ∈ findall_from run text ->
  (2 <= length t)%nat /\
  Forall (fun c => ru_char c = true /\ c ∈ run ++ text) t.
Proof.
  revert run. induction text as [|c text IH]; intros run Hrun Ht; simpl in Ht.
  - apply emit_elem in Ht as [-> Hlen]. split; [exact Hlen|].
    rewrite app_nil_r. rewrite Forall_forall in *. auto.
  - destruct (ru_char c) eqn:Hc.
    + apply IH in Ht as [Hlen Hall].
      * split; [exact Hlen|]. rewrite <- app_assoc in Hall. exact Hall.
      * apply Forall_app. split; [exact Hrun|]. constructor; [exact Hc|constructor].
    + apply elem_of_app in Ht as [Ht|Ht].
      * apply emit_elem in Ht as [-> Hlen]. split; [exact Hlen|].
        rewrite Forall_forall in *. intros x Hx. split; [auto|].
        apply elem_of_app. left. exact Hx.
      * apply IH in Ht as [Hlen Hall]; [|constructor].
        split; [exact Hlen|]. simpl in Hall.
        rewrite Forall_forall in *. intros x Hx.
        destruct (Hall x Hx) as [H1 H2]. split; [exact H1|].
        apply elem_of_app. right. apply elem_of_cons. right. exact H2.
Qed.

(** The scan reads a stretch of class characters into the run. *)
Lemma findall_from_run (a run rest : str) :
  Forall (fun c => ru_char c = true) a ->
  findall_from run (a ++ rest) = findall_from (run ++ a) rest.
Proof.
  revert run. induction a as [|c a IH]; intros run Ha; simpl.
  - rewrite app_nil_r. reflexivity.
  - inversion Ha as [|? ? Hc Ha']; subst. rewrite Hc, IH by exact Ha'.
    rewrite <- app_assoc. reflexivity.
Qed.

(** A maximal run, closed by a character outside the class or by the end of
    the text, is a match when it has two characters or more, and the scan
    starts afresh after it. *)
Lemma findall_maximal_run (a rest : str) (c : N) :
  Forall (fun c => ru_char c = true) a -> ru_char c = false ->
  RE_RU_WORD_findall (a ++ c :: rest) = emit a ++ RE_RU_WORD_findall rest.
Proof.
  intros Ha Hc. unfold RE_RU_WORD_findall.
  rewrite findall_from_run by exact Ha. simpl. rewrite Hc. reflexivity.
Qed.

Lemma findall_last_run (a : str) :
  Forall (fun c => ru_char c = true) a -> RE_RU_WORD_findall a = emit a.
Proof.
  intros Ha. unfold RE_RU_WORD_findall.
  rewrite <- (app_nil_r a) at 1. rewrite findall_from_run by exact Ha. reflexivity.
Qed.

(** What holds of every token: 2 to 40 characters, each of them in the
    character map. *)
Lemma tokenize_wf (text t : str) :
  t ∈ tokenize text ->
  (2 <= length t <= 40)%nat /\ Forall (fun c => charmap c = true) t.
Proof.
  unfold tokenize. intros Ht.
  apply list_elem_of_In, filter_In in Ht as [Ht Hlen].
  apply list_elem_of_In in Ht.
  unfold len_ok in Hlen. apply andb_true_iff in Hlen as [H2 H40].
  apply Nat.leb_le in H2, H40. split; [lia|].
  apply findall_from_elem in Ht as [_ Hall]; [|constructor].
  rewrite Forall_forall in *. intros c Hc.
  destruct (Hall c Hc) as [Hm Hin]. simpl in Hin.
  unfold lower in Hin. apply list_elem_of_In, in_map_iff in Hin as [c0 [<- _]].
  rewrite ru_char_lowered in Hm. exact Hm.
Qed.

(** ** The extractor *)

Lemma feed_app (self : HTMLTextExtractor) (evs1 evs2 : list event) :
  feed self (evs1 ++ evs2) = feed (feed self evs1) evs2.
Proof. unfold feed. apply fold_left_app. Qed.

Lemma skip_handle (self : HTMLTextExtractor) (e : event) :
  _skip (handle self e) = next_depth (_skip self) e.
Proof.
  destruct e as [t|t|d]; simpl.
  - unfold handle_starttag. destruct (is_skip_tag (lower t)); reflexivity.
  - unfold handle_endtag.
    destruct (is_skip_tag (lower t) && (0 <? _skip self)%Z); reflexivity.
  - unfold handle_data.
    destruct ((_skip self =? 0)%Z && nonempty d); reflexivity.
Qed.

Lemma next_depth_nonneg (k : Z) (e : event) : (0 <= k -> 0 <= next_depth k e)%Z.
Proof.
  intros Hk. destruct e as [t|t|d]; simpl.
  - destruct (is_skip_tag (lower t)); lia.
  - destruct (is_skip_tag (lower t)); simpl; [|lia].
    destruct (Z.ltb_spec 0 k); lia.
  - lia.
Qed.

(** The state after a stretch of callbacks: the visible fragments have been
    appended, and the counter has followed [next_depth]. *)
Lemma feed_state (evs : list event) (self : HTMLTextExtractor) :
  feed self evs =
  mkExtractor (_parts self ++ visible (_skip self) evs)
              (fold_left next_depth evs (_skip self)).
Proof.
  revert self. induction evs as [|e evs IH]; intros [parts k].
  - simpl. rewrite app_nil_r. reflexivity.
  - change (feed (mkExtractor parts k) (e :: evs))
      with (feed (handle (mkExtractor parts k) e) evs).
    rewrite IH. rewrite skip_handle. simpl _skip.
    destruct e as [t|t|d]; simpl.
    + unfold handle_starttag. simpl. destruct (is_skip_tag (lower t)); reflexivity.
    + unfold handle_endtag. simpl.
      destruct (is_skip_tag (lower t) && (0 <? k)%Z); reflexivity.
    + unfold handle_data. simpl.
      destruct ((k =? 0)%Z && nonempty d); simpl; [|reflexivity].
      rewrite <- app_assoc. reflexivity.
Qed.

Lemma fold_next_depth_nonneg (evs : list event) (k : Z) :
  (0 <= k -> 0 <= fold_left next_depth evs k)%Z.
Proof.
  revert k. induction evs as [|e evs IH]; intros k Hk; simpl; [exact Hk|].
  apply IH, next_depth_nonneg, Hk.
Qed.

(** Inside a skip element the counter is at least 1: a balanced stretch
    read there shows nothing and gives the counter back. *)
Lemma balanced_hidden (body : list event) (d : nat) (c : Z) :
  balanced d body = true -> (1 <= c)%Z ->
  visible (c + Z.of_nat d) body = [] /\
  fold_left next_depth body (c + Z.of_nat d)%Z = c.
Proof.
  revert d. induction body as [|e body IH]; intros d Hb Hc.
  - simpl in *. apply Nat.eqb_eq in Hb. subst d. simpl. split; [reflexivity|lia].
  - destruct e as [t|t|x]; simpl in *.
    + destruct (is_skip_tag (lower t)).
      * replace (c + Z.of_nat d + 1)%Z with (c + Z.of_nat (S d))%Z by lia.
        apply IH; assumption.
      * apply IH; assumption.
    + destruct (is_skip_tag (lower t)); simpl.
      * destruct d as [|d']; [discriminate|].
        destruct (Z.ltb_spec 0 (c + Z.of_nat (S d'))); [|lia].
        replace (c + Z.of_nat (S d') - 1)%Z with (c + Z.of_nat d')%Z by lia.
        apply IH; assumption.
      * apply IH; assumption.
    + destruct (Z.eqb_spec (c + Z.of_nat d) 0); [lia|]. simpl.
      apply IH; assumption.
Qed.

(** A whole skip element, opening tag to closing tag, leaves the extractor
    as it found it. *)
Lemma feed_skip_element (self : HTMLTextExtractor) (t t' : str) (body : list event) :
  (0 <= _skip self)%Z ->
  is_skip_tag (lower t) = true -> is_skip_tag (lower t') = true ->
  balanced 0 body = true ->
  feed self (starttag t :: body ++ [endtag t']) = self.
Proof.
  intros Hk Ht Ht' Hb. destruct self as [parts k]. simpl in Hk.
  rewrite feed_state. simpl _parts. simpl _skip.
  destruct (balanced_hidden body 0 (k + 1) Hb ltac:(lia)) as [Hv Hd].
  replace (k + 1 + Z.of_nat 0)%Z with (k + 1)%Z in * by lia.
  simpl. rewrite Ht. rewrite fold_left_app.
  f_equal.
  - assert (Hvis : forall evs1 evs2 j,
        visible j (evs1 ++ evs2) = visible j evs1 ++ visible (fold_left next_depth evs1 j) evs2).
    { induction evs1 as [|e evs1 IH1]; intros evs2 j; [reflexivity|].
      destruct e as [u|u|x]; simpl; rewrite ?IH1; try reflexivity.
      destruct ((j =? 0)%Z && nonempty x); reflexivity. }
    rewrite Hvis, Hv, Hd. simpl. apply app_nil_r.
  - rewrite Hd. simpl. rewrite Ht'. simpl.
    destruct (Z.ltb_spec 0 (k + 1)); lia.
Qed.

Lemma feed_init_nonneg (evs : list event) : (0 <= _skip (feed init evs))%Z.
Proof.
  rewrite feed_state. simpl. apply fold_next_depth_nonneg. lia.
Qed.

(** ** The aggregator *)

Lemma record_token_tokens (st : Agg) (l t : str) :
  tokens_set (record_token st l t) = {[t]} ∪ tokens_set st.
Proof. reflexivity. Qed.

(** The dictionary after a token is recorded: the set of its lemma has the
    token added, starting from the empty set for a new lemma; the other keys
    are as before. *)
Lemma record_token_lookup (st : Agg) (l t k : str) :
  lemma_to_tokens (record_token st l t) !! k =
  if decide (k = l)
  then Some ({[t]} ∪ default ∅ (lemma_to_tokens st !! l))
  else lemma_to_tokens st !! k.
Proof.
  unfold record_token. simpl.
  destruct (lemma_to_tokens st !! l) as [S|] eqn:E; simpl.
  - destruct (decide (k = l)) as [->|Hne].
    + rewrite lookup_alter_eq, E. reflexivity.
    + rewrite lookup_alter_ne by congruence. reflexivity.
  - destruct (decide (k = l)) as [->|Hne].
    + rewrite lookup_alter_eq, lookup_insert_eq. reflexivity.
    + rewrite lookup_alter_ne, lookup_insert_ne by congruence. reflexivity.
Qed.

Lemma agg_eq (st1 st2 : Agg) :
  tokens_set st1 = tokens_set st2 ->
  (forall k, lemma_to_tokens st1 !! k = lemma_to_tokens st2 !! k) ->
  st1 = st2.
Proof.
  destruct st1, st2. simpl. intros -> H. f_equal. apply map_eq. exact H.
Qed.

(** Recording two tokens in either order gives the same containers. *)
Lemma record_token_comm (st : Agg) (l1 t1 l2 t2 : str) :
  record_token (record_token st l1 t1) l2 t2 =
  record_token (record_token st l2 t2) l1 t1.
Proof.
  apply agg_eq.
  - rewrite !record_token_tokens.
    rewrite !(assoc_L (∪)). f_equal. apply (comm_L (∪)).
  - intros k. rewrite !record_token_lookup.
    repeat case_decide; subst; try congruence; simpl; f_equal.
    rewrite !(assoc_L (∪)). f_equal. apply (comm_L (∪)).
Qed.

Lemma union_singleton_nonempty (t : str) (X : gset str) : {[t]} ∪ X <> ∅.
Proof.
  intros H. apply (not_elem_of_empty (C:=gset str) t). rewrite <- H.
  apply elem_of_union_l, elem_of_singleton. reflexivity.
Qed.

Section AggregatorFacts.
Context (isdigit : N -> bool) (morph_parse : str -> list Parse).

Local Abbreviation step := (agg_step isdigit morph_parse).
Local Abbreviation accepted := (accept isdigit morph_parse).
Local Abbreviation aggr := (aggregate isdigit morph_parse).
Local Abbreviation inv := (agg_inv isdigit morph_parse).

(** One turn of the loop records the token under the lemma the filters
    give, or does nothing. *)
Lemma agg_step_accept (st : Agg) (tok : str) :
  step st tok =
  match accepted tok with
  | Some l => record_token st l tok
  | None => st
  end.
Proof.
  unfold agg_step, accept, lemma_rejected.
  destruct (has_digit isdigit tok); [reflexivity|].
  destruct (morph_parse tok) as [|p ps]; simpl; [reflexivity|].
  destruct (in_bad_pos (POS p)); [reflexivity|].
  destruct (RE_RU_WORD_fullmatch (normal_form p)), (len_ok (normal_form p));
    reflexivity.
Qed.

Lemma agg_step_comm (st : Agg) (a b : str) :
  step (step st a) b = step (step st b) a.
Proof.
  rewrite !agg_step_accept.
  destruct (accepted a), (accepted b); try reflexivity.
  apply record_token_comm.
Qed.

Lemma fold_step_perm (l1 l2 : list str) :
  l1 ≡ₚ l2 -> forall st, fold_left step l1 st = fold_left step l2 st.
Proof.
  induction 1 as [|x l l' _ IH|x y l|l l' l'' _ IH1 _ IH2]; intros st; simpl.
  - reflexivity.
  - apply IH.
  - rewrite agg_step_comm. reflexivity.
  - rewrite IH1. apply IH2.
Qed.

Lemma aggregate_perm (l1 l2 : list str) :
  l1 ≡ₚ l2 -> aggr l1 = aggr l2.
Proof. intros H. apply fold_step_perm. exact H. Qed.

Lemma aggregate_snoc (toks : list str) (tok : str) :
  aggr (toks ++ [tok]) = step (aggr toks) tok.
Proof. unfold aggregate. rewrite fold_left_app. reflexivity. Qed.

Lemma agg_inv_empty : inv [] empty_agg.
Proof.
  split; [|split]; simpl.
  - intros t. split; [intros H; inversion H|intros [H _]; inversion H].
  - intros l S H. rewrite lookup_empty in H. discriminate.
  - intros t l H. inversion H.
Qed.

Lemma agg_inv_step (toks : list str) (st : Agg) (tok : str) :
  inv toks st -> inv (toks ++ [tok]) (step st tok).
Proof.
  intros (Hset & Hmap & Hdom). rewrite agg_step_accept.
  destruct (accepted tok) as [l|] eqn:Hacc.
  - split; [|split].
    + intros t. rewrite record_token_tokens, elem_of_union, elem_of_singleton,
        Hset, elem_of_app, list_elem_of_singleton.
      split.
      * intros [->|[H1 H2]]; [split; [auto|rewrite Hacc; eauto]|auto].
      * intros [[H1| ->] H2]; auto.
    + intros k S. rewrite record_token_lookup.
      destruct (decide (k = l)) as [->|Hne].
      * intros [= <-]. split; [apply union_singleton_nonempty|].
        intros t. rewrite elem_of_union, elem_of_singleton, elem_of_app,
          list_elem_of_singleton.
        destruct (lemma_to_tokens st !! l) as [S0|] eqn:E; simpl.
        -- destruct (Hmap l S0 E) as [_ HS0]. rewrite HS0.
           split; [intros [->|[H1 H2]]; auto|intros [[H1| ->] H2]; auto].
        -- split; [intros [->|H]; [auto|destruct (not_elem_of_empty (C:=gset str) t H)]|].
           intros [[H1| ->] H2]; [|auto].
           destruct (Hdom t l H1 H2) as [S0 HS0]. congruence.
      * intros E. destruct (Hmap k S E) as [Hne' HS]. split; [exact Hne'|].
        intros t. rewrite HS, elem_of_app, list_elem_of_singleton.
        split; [intros [H1 H2]; auto|].
        intros [[H1| ->] H2]; [auto|congruence].
    + intros t k Ht Hk. rewrite record_token_lookup.
      destruct (decide (k = l)); [eauto|].
      apply elem_of_app in Ht as [Ht|Ht]; [eauto|].
      apply list_elem_of_singleton in Ht. subst t. congruence.
  - split; [|split].
    + intros t. rewrite Hset, elem_of_app, list_elem_of_singleton.
      split; [intros [H1 H2]; auto|].
      intros [[H1| ->] H2]; [auto|].
      rewrite Hacc in H2. destruct H2 as [? [=]].
    + intros k S E. destruct (Hmap k S E) as [Hne HS]. split; [exact Hne|].
      intros t. rewrite HS, elem_of_app, list_elem_of_singleton.
      split; [intros [H1 H2]; auto|].
      intros [[H1| ->] H2]; [auto|congruence].
    + intros t k Ht Hk.
      apply elem_of_app in Ht as [Ht|Ht]; [eauto|].
      apply list_elem_of_singleton in Ht. subst t. congruence.
Qed.

Lemma aggregate_inv (toks : list str) : inv toks (aggr toks).
Proof.
  induction toks as [|tok toks IH] using rev_ind.
  - apply agg_inv_empty.
  - rewrite aggregate_snoc. apply agg_inv_step. exact IH.
Qed.

End AggregatorFacts.

(** ** The filters one by one *)

Lemma has_digit_true (isdigit : N -> bool) (tok : str) :
  has_digit isdigit tok = true <-> exists c, c ∈ tok /\ isdigit c = true.
Proof.
  unfold has_digit. rewrite existsb_exists.
  split; intros [c [H1 H2]]; exists c; split; auto; apply list_elem_of_In; exact H1.
Qed.

Lemma has_digit_false (isdigit : N -> bool) (tok : str) :
  has_digit isdigit tok = false <-> forall c, c ∈ tok -> isdigit c = false.
Proof.
  split.
  - intros H c Hc. destruct (isdigit c) eqn:E; [|reflexivity].
    assert (has_digit isdigit tok = true) by (apply has_digit_true; eauto).
    congruence.
  - intros H. destruct (has_digit isdigit tok) eqn:E; [|reflexivity].
    apply has_digit_true in E as [c [H1 H2]]. rewrite (H c H1) in H2. discriminate.
Qed.

Lemma in_bad_pos_true (pos : option string) :
  in_bad_pos pos = true <-> exists tag, pos = Some tag /\ tag ∈ bad_pos.
Proof.
  destruct pos as [tag|]; unfold in_bad_pos.
  - rewrite existsb_exists. split.
    + intros [x [H1 H2]]. apply String.eqb_eq in H2. subst x.
      exists tag. split; [reflexivity|]. apply list_elem_of_In. exact H1.
    + intros [x [[= <-] H2]]. exists tag. split; [apply list_elem_of_In; exact H2|].
      apply String.eqb_refl.
  - split; [discriminate|]. intros [x [[=] _]].
Qed.

(** The test of line 128 lets through the strings of 2 to 40 characters
    that the pattern matches in full. *)
Lemma lemma_rejected_false (lemma : str) :
  lemma_rejected lemma = false <->
  (2 <= length lemma <= 40)%nat /\ Forall (fun c => ru_char c = true) lemma.
Proof.
  unfold lemma_rejected, RE_RU_WORD_fullmatch, len_ok.
  rewrite orb_false_iff, !negb_false_iff, !andb_true_iff, forallb_forall,
    !Nat.leb_le, Forall_forall.
  split.
  - intros [[H1 H2] [H3 H4]]. split; [lia|].
    intros c Hc. apply H1, list_elem_of_In, Hc.
  - intros [[H1 H2] H3]. repeat split; auto.
    intros c Hc. apply H3, list_elem_of_In, Hc.
Qed.

Lemma accept_Some (isdigit : N -> bool) (morph_parse : str -> list Parse) (tok l : str) :
  accept isdigit morph_parse tok = Some l <->
  has_digit isdigit tok = false /\
  exists p ps, morph_parse tok = p :: ps /\ in_bad_pos (POS p) = false /\
               lemma_rejected (normal_form p) = false /\ l = normal_form p.
Proof.
  unfold accept, lemma_rejected. split.
  - destruct (has_digit isdigit tok) eqn:Hd; [discriminate|].
    destruct (morph_parse tok) as [|p ps] eqn:Hp; simpl; [discriminate|].
    destruct (in_bad_pos (POS p)) eqn:Hb; [discriminate|].
    destruct (RE_RU_WORD_fullmatch (normal_form p)) eqn:E1; simpl; [|discriminate].
    destruct (len_ok (normal_form p)) eqn:E2; simpl; [|discriminate].
    intros [= <-]. split; [reflexivity|]. exists p, ps. rewrite E1, E2. auto.
  - intros [Hd (p & ps & Hp & Hb & Hr & ->)]. rewrite Hd, Hp. simpl. rewrite Hb.
    apply orb_false_iff in Hr as [H1 H2]. apply negb_false_iff in H1, H2.
    rewrite H1, H2. reflexivity.
Qed.

(** The dictionary after a recorded token, as one update. *)
Lemma record_token_map (st : Agg) (l t : str) :
  lemma_to_tokens (record_token st l t) =
  <[l := {[t]} ∪ default ∅ (lemma_to_tokens st !! l)]> (lemma_to_tokens st).
Proof.
  apply map_eq. intros k. rewrite record_token_lookup.
  destruct (decide (k = l)) as [->|Hne].
  - rewrite lookup_insert_eq. reflexivity.
  - rewrite lookup_insert_ne by congruence. reflexivity.
Qed.

(** C1. For every token of the sequence the loop applies its filters in
    order, the first that fails rejecting the token: a token with a digit
    character is rejected; otherwise one for which the analyzer has no
    parse; otherwise, with the parse at index 0, one whose part of speech is
    PREP, CONJ, PRCL or INTJ; otherwise one whose normal form is not made of
    2 to 40 letters of the word pattern; a token that passes them all is
    added to the token set and to the set kept under that normal form, which
    starts empty when the key is new. *)
Theorem C1_filters_in_order
  (isdigit : N -> bool) (morph_parse : str -> list Parse) (st : Agg) (tok : str) :
  (forall toks, aggregate isdigit morph_parse (toks ++ [tok]) =
                agg_step isdigit morph_parse (aggregate isdigit morph_parse toks) tok) /\
  ((exists c, c ∈ tok /\ isdigit c = true) ->
     agg_step isdigit morph_parse st tok = st) /\
  ((forall c, c ∈ tok -> isdigit c = false) -> morph_parse tok = [] ->
     agg_step isdigit morph_parse st tok = st) /\
  (forall p ps tag,
     (forall c, c ∈ tok -> isdigit c = false) -> morph_parse tok = p :: ps ->
     POS p = Some tag -> tag ∈ ["PREP"; "CONJ"; "PRCL"; "INTJ"]%string ->
     agg_step isdigit morph_parse st tok = st) /\
  (forall p ps,
     (forall c, c ∈ tok -> isdigit c = false) -> morph_parse tok = p :: ps ->
     (forall tag, POS p = Some tag -> tag ∉ ["PREP"; "CONJ"; "PRCL"; "INTJ"]%string) ->
     ~ ((2 <= length (normal_form p) <= 40)%nat /\
        Forall (fun c => ru_char c = true) (normal_form p)) ->
     agg_step isdigit morph_parse st tok = st) /\
  (forall p ps,
     (forall c, c ∈ tok -> isdigit c = false) -> morph_parse tok = p :: ps ->
     (forall tag, POS p = Some tag -> tag ∉ ["PREP"; "CONJ"; "PRCL"; "INTJ"]%string) ->
     (2 <= length (normal_form p) <= 40)%nat ->
     Forall (fun c => ru_char c = true) (normal_form p) ->
     tokens_set (agg_step isdigit morph_parse st tok) = {[tok]} ∪ tokens_set st /\
     lemma_to_tokens (agg_step isdigit morph_parse st tok) =
       <[normal_form p :=
           {[tok]} ∪ default ∅ (lemma_to_tokens st !! normal_form p)]>
         (lemma_to_tokens st)).
Proof.
  split; [intros toks; apply aggregate_snoc|].
  split; [|split; [|split; [|split]]].
  - intros Hd. apply has_digit_true in Hd. unfold agg_step. rewrite Hd. reflexivity.
  - intros Hd Hp. apply has_digit_false in Hd. unfold agg_step. rewrite Hd, Hp.
    reflexivity.
  - intros p ps tag Hd Hp Hpos Hbad. apply has_digit_false in Hd.
    unfold agg_step. rewrite Hd, Hp.
    assert (Hb : in_bad_pos (POS p) = true) by (apply in_bad_pos_true; eauto).
    rewrite Hb. reflexivity.
  - intros p ps Hd Hp Hpos Hlem. apply has_digit_false in Hd.
    unfold agg_step. rewrite Hd, Hp.
    destruct (in_bad_pos (POS p)) eqn:Hb; [reflexivity|].
    destruct (lemma_rejected (normal_form p)) eqn:Hr; [reflexivity|].
    exfalso. apply Hlem. apply lemma_rejected_false. exact Hr.
  - intros p ps Hd Hp Hpos Hlen Hall. apply has_digit_false in Hd.
    unfold agg_step. rewrite Hd, Hp.
    destruct (in_bad_pos (POS p)) eqn:Hb.
    { apply in_bad_pos_true in Hb as (tag & Ht & Hin). exfalso.
      exact (Hpos tag Ht Hin). }
    assert (Hr : lemma_rejected (normal_form p) = false)
      by (apply lemma_rejected_false; auto).
    rewrite Hr. split; [reflexivity|apply record_token_map].
Qed.

Lemma C1_filters_in_order_witness :
  agg_step ascii_isdigit toy_parse empty_agg (utf8 "a1") = empty_agg /\
  agg_step ascii_isdigit toy_parse empty_agg (utf8 "ъъ") = empty_agg /\
  agg_step ascii_isdigit toy_parse empty_agg (utf8 "во") = empty_agg /\
  agg_step ascii_isdigit toy_parse empty_agg (utf8 "эх") = empty_agg /\
  tokens_set (agg_step ascii_isdigit toy_parse empty_agg (utf8 "мира"))
    = {[utf8 "мира"]} ∪ ∅.
Proof.
  split; [|split; [|split; [|split]]].
  - destruct (C1_filters_in_order ascii_isdigit toy_parse empty_agg (utf8 "a1"))
      as (_ & H & _).
    apply H. exists 0x31. split; [|reflexivity].
    apply list_elem_of_In. vm_compute. auto.
  - destruct (C1_filters_in_order ascii_isdigit toy_parse empty_agg (utf8 "ъъ"))
      as (_ & _ & H & _).
    apply H.
    + apply has_digit_false. vm_compute. reflexivity.
    + vm_compute. reflexivity.
  - destruct (C1_filters_in_order ascii_isdigit toy_parse empty_agg (utf8 "во"))
      as (_ & _ & _ & H & _).
    apply (H (mkParse (Some "PREP"%string) (utf8 "во")) [] "PREP"%string).
    + apply has_digit_false. vm_compute. reflexivity.
    + vm_compute. reflexivity.
    + reflexivity.
    + apply list_elem_of_In. simpl. auto.
  - destruct (C1_filters_in_order ascii_isdigit toy_parse empty_agg (utf8 "эх"))
      as (_ & _ & _ & _ & H & _).
    apply (H (mkParse None (utf8 "x1")) []).
    + apply has_digit_false. vm_compute. reflexivity.
    + vm_compute. reflexivity.
    + intros tag Htag. discriminate.
    + intros [_ Hall]. apply Forall_forall with (x := 0x78) in Hall.
      * vm_compute in Hall. discriminate.
      * apply list_elem_of_In. vm_compute. auto.
  - destruct (C1_filters_in_order ascii_isdigit toy_parse empty_agg (utf8 "мира"))
      as (_ & _ & _ & _ & _ & H).
    apply (H (mkParse (Some "NOUN"%string) (utf8 "мир"))
             [mkParse (Some "PRCL"%string) (utf8 "мира")]).
    + apply has_digit_false. vm_compute. reflexivity.
    + vm_compute. reflexivity.
    + intros tag [= <-] Hin. apply list_elem_of_In in Hin. simpl in Hin.
      repeat destruct Hin as [Hin|Hin]; try discriminate; exact Hin.
    + vm_compute. lia.
    + apply Forall_forall. intros c Hc. apply list_elem_of_In in Hc.
      vm_compute in Hc. repeat destruct Hc as [<-|Hc]; try reflexivity; destruct Hc.
Defined.

(** ** The tokenizer on letters outside the Russian alphabet *)

(** C2. The pattern, compiled with IGNORECASE, also matches the letters
    U+1C80..U+1C86, which lowercasing leaves as they are: a text of two
    such letters is one token, although none of its letters is among the 33
    lowercase letters а..я, ё that the tokenizer is meant to keep. *)
Theorem C2_tokenize_keeps_extended_letters :
  tokenize [0x1C80; 0x1C80] = [[0x1C80; 0x1C80]] /\
  Forall (fun c => ru_lower33 c = false) [0x1C80; 0x1C80] /\
  ~ (forall text t, t ∈ tokenize text ->
       (2 <= length t <= 40)%nat /\ Forall (fun c => ru_lower33 c = true) t).
Proof.
  split; [vm_compute; reflexivity|].
  split; [repeat constructor|].
  intros H. destruct (H [0x1C80; 0x1C80] [0x1C80; 0x1C80]) as [_ Hall].
  - vm_compute. apply list_elem_of_here.
  - inversion Hall as [|? ? Hc _]. vm_compute in Hc. discriminate.
Qed.

(** ** The digit test after the tokenizer *)

Lemma ascii_isdigit_letters (c : N) : charmap c = true -> ascii_isdigit c = false.
Proof.
  rewrite charmap_spec. unfold ascii_isdigit. intros H.
  destruct (in_range 0x30 0x39 c) eqn:E; [|reflexivity]. exfalso. ranges.
Qed.

Lemma fold_step_nodigit (isdigit : N -> bool) (morph_parse : str -> list Parse)
  (toks : list str) (st : Agg) :
  Forall (fun t => has_digit isdigit t = false) toks ->
  fold_left (agg_step isdigit morph_parse) toks st =
  fold_left (agg_step_nodigit morph_parse) toks st.
Proof.
  revert st. induction toks as [|t toks IH]; intros st Hall; [reflexivity|].
  inversion Hall as [|? ? Ht Hrest]; subst. simpl.
  rewrite <- IH by exact Hrest. f_equal.
  unfold agg_step, agg_step_nodigit. rewrite Ht. reflexivity.
Qed.

Lemma collect_elem (scan : str -> list event) (files : list str) (env : Env) (t : str) :
  t ∈ collect scan files env -> exists text, t ∈ tokenize text.
Proof.
  unfold collect. intros H. apply list_elem_of_In, in_flat_map in H as [path [_ H]].
  eexists. apply list_elem_of_In. exact H.
Qed.

(** C8. No token the tokenizer produces contains a digit character, given
    that no letter of the word pattern is a digit for [str.isdigit]; so on
    the tokens collected from the pages the loop does what it would do
    without the digit test. *)
Theorem C8_digit_test_never_rejects
  (scan : str -> list event) (isdigit : N -> bool) (morph_parse : str -> list Parse)
  (Hletters : forall c, charmap c = true -> isdigit c = false) :
  (forall text tok, tok ∈ tokenize text ->
     has_digit isdigit tok = false /\ forall c, c ∈ tok -> isdigit c = false) /\
  (forall files env,
     aggregate isdigit morph_parse (collect scan files env) =
     fold_left (agg_step_nodigit morph_parse) (collect scan files env) empty_agg).
Proof.
  assert (Htok : forall text tok, tok ∈ tokenize text ->
                 forall c, c ∈ tok -> isdigit c = false).
  { intros text tok Ht c Hc. apply tokenize_wf in Ht as [_ Hall].
    rewrite Forall_forall in Hall. apply Hletters, Hall, Hc. }
  split.
  - intros text tok Ht. split; [|exact (Htok text tok Ht)].
    apply has_digit_false. exact (Htok text tok Ht).
  - intros files env. apply fold_step_nodigit.
    apply Forall_forall. intros t Ht. apply collect_elem in Ht as [text Ht].
    apply has_digit_false. exact (Htok text t Ht).
Qed.

Lemma C8_digit_test_never_rejects_witness :
  has_digit ascii_isdigit (utf8 "мир") = false.
Proof.
  destruct (C8_digit_test_never_rejects simple_scan ascii_isdigit toy_parse
              ascii_isdigit_letters) as [H _].
  apply (H (utf8 "Миру - мир, 123") (utf8 "мир")).
  vm_compute. apply list_elem_of_further, list_elem_of_here.
Defined.

(** ** The text of a page *)

Lemma text_of_events_visible (evs : list event) :
  text_of_events evs = join SP (visible 0 evs).
Proof. unfold text_of_events, get_text. rewrite feed_state. reflexivity. Qed.

(** Taking a whole skip element out of a page does not change its text. *)
Lemma text_without_skip_element (pre body post : list event) (t t' : str) :
  is_skip_tag (lower t) = true -> is_skip_tag (lower t') = true ->
  balanced 0 body = true ->
  text_of_events (pre ++ starttag t :: body ++ endtag t' :: post) =
  text_of_events (pre ++ post).
Proof.
  intros Ht Ht' Hb. unfold text_of_events. f_equal.
  replace (starttag t :: body ++ endtag t' :: post)
    with ((starttag t :: body ++ [endtag t']) ++ post)
    by (simpl; rewrite <- app_assoc; reflexivity).
  rewrite !feed_app. f_equal.
  apply feed_skip_element; auto. apply feed_init_nonneg.
Qed.

(** C5. The text of a page is its visible fragments, in order, joined by
    one space, a fragment being visible when it arrives while the skip
    counter is 0: a script, style or noscript element, with the elements
    nested in it, contributes nothing.  The page of the scenario gives the
    tokens "привет" and "мир" only. *)
Theorem C5_visible_text (scan : str -> list event) :
  (forall html, html_to_text scan html = join (utf8 " ") (visible 0 (scan html))) /\
  (forall html pre body post t t',
     scan html = pre ++ starttag t :: body ++ endtag t' :: post ->
     lower t ∈ skip_tags -> lower t' ∈ skip_tags -> balanced 0 body = true ->
     html_to_text scan html = join (utf8 " ") (visible 0 (pre ++ post))) /\
  (scan scenario_page = scenario_events ->
     html_to_text scan scenario_page = utf8 "Привет мир" /\
     tokenize (html_to_text scan scenario_page) = [utf8 "привет"; utf8 "мир"]).
Proof.
  assert (Htext : forall html, html_to_text scan html = text_of_events (scan html))
    by reflexivity.
  assert (Hlow : forall t, lower t ∈ skip_tags -> is_skip_tag (lower t) = true).
  { intros t Ht. unfold is_skip_tag. apply bool_decide_eq_true. exact Ht. }
  split; [|split].
  - intros html. rewrite Htext. apply text_of_events_visible.
  - intros html pre body post t t' Hscan Ht Ht' Hb.
    rewrite Htext, Hscan, text_without_skip_element by auto.
    apply text_of_events_visible.
  - intros Hscan. rewrite Htext, Hscan. split; vm_compute; reflexivity.
Qed.

Lemma C5_visible_text_witness :
  html_to_text simple_scan (utf8 "a<style>b<script>c</script>d</style>e")
    = join (utf8 " ") (visible 0 [data (utf8 "a"); data (utf8 "e")]) /\
  tokenize (html_to_text simple_scan scenario_page) = [utf8 "привет"; utf8 "мир"].
Proof.
  destruct (C5_visible_text simple_scan) as (_ & Hskip & Hscen).
  split.
  - apply (Hskip _ [data (utf8 "a")]
             [data (utf8 "b"); starttag (utf8 "script"); data (utf8 "c");
              endtag (utf8 "script"); data (utf8 "d")]
             [data (utf8 "e")] (utf8 "style") (utf8 "style")).
    + vm_compute. reflexivity.
    + apply list_elem_of_In. vm_compute. auto.
    + apply list_elem_of_In. vm_compute. auto.
    + vm_compute. reflexivity.
  - apply Hscen. vm_compute. reflexivity.
Defined.

(** ** The skip counter *)

(** C9. The skip counter is never negative.  A closing script, style or
    noscript tag met while the counter is 0 leaves the extractor as it is,
    so the page reads on as if the tag were not there: the text that
    follows is kept and a later skip element is still left out. *)
Theorem C9_skip_counter_not_negative :
  (forall evs, (0 <= _skip (feed init evs))%Z) /\
  (forall self tag, _skip self = 0%Z -> handle_endtag self tag = self) /\
  (forall pre tag post,
     _skip (feed init pre) = 0%Z ->
     feed init (pre ++ endtag tag :: post) = feed init (pre ++ post)) /\
  text_of_events
    [ endtag (utf8 "script"); data (utf8 "a"); starttag (utf8 "style");
      data (utf8 "b"); endtag (utf8 "style"); data (utf8 "c") ] = utf8 "a c".
Proof.
  assert (Hend : forall self tag, _skip self = 0%Z -> handle_endtag self tag = self).
  { intros self tag Hk. unfold handle_endtag. rewrite Hk.
    rewrite andb_false_r. reflexivity. }
  split; [apply feed_init_nonneg|].
  split; [exact Hend|].
  split; [|vm_compute; reflexivity].
  intros pre tag post Hk. rewrite !feed_app.
  change (feed (feed init pre) (endtag tag :: post))
    with (feed (handle_endtag (feed init pre) tag) post).
  rewrite Hend by exact Hk. reflexivity.
Qed.

Lemma C9_skip_counter_not_negative_witness :
  feed init ([data (utf8 "x")] ++ endtag (utf8 "noscript") :: [data (utf8 "y")])
  = feed init ([data (utf8 "x")] ++ [data (utf8 "y")]).
Proof.
  destruct C9_skip_counter_not_negative as (_ & _ & H & _).
  apply H. vm_compute. reflexivity.
Defined.

(** ** The lists that are written out *)

Lemma tokens_list_elem (st : Agg) (t : str) :
  t ∈ tokens_list st <-> t ∈ tokens_set st.
Proof. unfold tokens_list. rewrite sorted_elem, elem_of_elements. reflexivity. Qed.

Lemma tokens_list_strict (st : Agg) : StronglySorted str_lt (tokens_list st).
Proof. apply sorted_strict, NoDup_elements. Qed.

Lemma lemma_keys_elem (st : Agg) (l : str) :
  l ∈ lemma_keys st <-> is_Some (lemma_to_tokens st !! l).
Proof.
  unfold lemma_keys. rewrite sorted_elem.
  change (map fst (map_to_list (lemma_to_tokens st)))
    with ((map_to_list (lemma_to_tokens st)).*1).
  rewrite list_elem_of_fmap. split.
  - intros [[k S] [-> H]]. apply elem_of_map_to_list in H. simpl. eauto.
  - intros [S H]. exists (l, S). split; [reflexivity|].
    apply elem_of_map_to_list. exact H.
Qed.

Lemma lemma_keys_strict (st : Agg) : StronglySorted str_lt (lemma_keys st).
Proof. apply sorted_strict. apply (NoDup_fst_map_to_list (lemma_to_tokens st)). Qed.

Lemma lemma_toks_elem (st : Agg) (l : str) (S : gset str) (t : str) :
  lemma_to_tokens st !! l = Some S -> t ∈ lemma_toks st l <-> t ∈ S.
Proof.
  intros H. unfold lemma_toks.
  rewrite (lookup_total_correct _ _ _ H), sorted_elem, elem_of_elements.
  reflexivity.
Qed.

Lemma lemma_toks_strict (st : Agg) (l : str) : StronglySorted str_lt (lemma_toks st l).
Proof. apply sorted_strict, NoDup_elements. Qed.

(** ** The containers after the loop *)

(** C3. After the aggregation the token set and every set of the lemma
    index are without repetitions, every token of a set of the index is in
    the token set, and a token is under one lemma key only, the normal form
    of the first parse of the token. *)
Theorem C3_aggregation_invariants
  (isdigit : N -> bool) (morph_parse : str -> list Parse) (toks : list str) :
  NoDup (elements (tokens_set (aggregate isdigit morph_parse toks))) /\
  NoDup (tokens_list (aggregate isdigit morph_parse toks)) /\
  (forall l S, lemma_to_tokens (aggregate isdigit morph_parse toks) !! l = Some S ->
     NoDup (elements S) /\
     NoDup (lemma_toks (aggregate isdigit morph_parse toks) l) /\
     forall t, t ∈ S ->
       t ∈ tokens_set (aggregate isdigit morph_parse toks) /\
       exists p ps, morph_parse t = p :: ps /\ l = normal_form p) /\
  (forall l1 l2 S1 S2 t,
     lemma_to_tokens (aggregate isdigit morph_parse toks) !! l1 = Some S1 ->
     lemma_to_tokens (aggregate isdigit morph_parse toks) !! l2 = Some S2 ->
     t ∈ S1 -> t ∈ S2 -> l1 = l2).
Proof.
  destruct (aggregate_inv isdigit morph_parse toks) as (Hset & Hmap & Hdom).
  split; [apply NoDup_elements|].
  split; [unfold tokens_list; rewrite sorted_perm; apply NoDup_elements|].
  split.
  - intros l S E. split; [apply NoDup_elements|].
    split; [unfold lemma_toks; rewrite sorted_perm; apply NoDup_elements|].
    intros t Ht. destruct (Hmap l S E) as [_ HS]. apply HS in Ht as [Hin Hacc].
    split.
    + apply Hset. split; [exact Hin|]. rewrite Hacc. eauto.
    + apply accept_Some in Hacc as [_ (p & ps & Hp & _ & _ & ->)]. eauto.
  - intros l1 l2 S1 S2 t E1 E2 H1 H2.
    destruct (Hmap l1 S1 E1) as [_ HS1]. destruct (Hmap l2 S2 E2) as [_ HS2].
    apply HS1 in H1 as [_ A1]. apply HS2 in H2 as [_ A2]. congruence.
Qed.

Lemma C3_aggregation_invariants_witness :
  utf8 "мира" ∈ tokens_set (aggregate ascii_isdigit toy_parse
                              [utf8 "мира"; utf8 "во"; utf8 "миру"]).
Proof.
  destruct (C3_aggregation_invariants ascii_isdigit toy_parse
              [utf8 "мира"; utf8 "во"; utf8 "миру"]) as (_ & _ & H & _).
  apply (H (utf8 "мир") {[utf8 "мира"; utf8 "миру"]}).
  - vm_compute. reflexivity.
  - apply elem_of_union_l, elem_of_singleton. reflexivity.
Defined.

(** C10. Every token of the token set is in a set of the lemma index, so
    every line of the tokens file is a token of one line of the lemmas
    file, and of one only. *)
Theorem C10_token_under_one_lemma
  (isdigit : N -> bool) (morph_parse : str -> list Parse) (toks : list str) :
  (forall t, t ∈ tokens_set (aggregate isdigit morph_parse toks) ->
     exists l S, lemma_to_tokens (aggregate isdigit morph_parse toks) !! l = Some S /\
                 t ∈ S) /\
  (forall t, t ∈ tokens_list (aggregate isdigit morph_parse toks) ->
     exists l,
       l ∈ lemma_keys (aggregate isdigit morph_parse toks) /\
       t ∈ lemma_toks (aggregate isdigit morph_parse toks) l /\
       forall l', l' ∈ lemma_keys (aggregate isdigit morph_parse toks) ->
                  t ∈ lemma_toks (aggregate isdigit morph_parse toks) l' -> l' = l).
Proof.
  destruct (aggregate_inv isdigit morph_parse toks) as (Hset & Hmap & Hdom).
  assert (Hin : forall t, t ∈ tokens_set (aggregate isdigit morph_parse toks) ->
     exists l S, lemma_to_tokens (aggregate isdigit morph_parse toks) !! l = Some S /\
                 t ∈ S /\ accept isdigit morph_parse t = Some l).
  { intros t Ht. apply Hset in Ht as [Ht [l Hl]].
    destruct (Hdom t l Ht Hl) as [S E]. exists l, S.
    split; [exact E|]. split; [|exact Hl].
    destruct (Hmap l S E) as [_ HS]. apply HS. auto. }
  split.
  - intros t Ht. destruct (Hin t Ht) as (l & S & E & HtS & _). eauto.
  - intros t Ht. apply tokens_list_elem in Ht.
    destruct (Hin t Ht) as (l & S & E & HtS & Hacc). exists l.
    split; [apply lemma_keys_elem; eauto|].
    split; [apply (lemma_toks_elem _ _ _ _ E); exact HtS|].
    intros l' Hl' Ht'. apply lemma_keys_elem in Hl' as [S' E'].
    apply (lemma_toks_elem _ _ _ _ E') in Ht'.
    destruct (Hmap l' S' E') as [_ HS']. apply HS' in Ht' as [_ Hacc']. congruence.
Qed.

Lemma C10_token_under_one_lemma_witness :
  exists l S,
    lemma_to_tokens (aggregate ascii_isdigit toy_parse [utf8 "шёл"; utf8 "миру"]) !! l
      = Some S /\ utf8 "шёл" ∈ S.
Proof.
  destruct (C10_token_under_one_lemma ascii_isdigit toy_parse [utf8 "шёл"; utf8 "миру"])
    as [H _].
  apply H. vm_compute. reflexivity.
Defined.

(** ** The run *)

Lemma charmap_plain (c : N) : charmap c = true -> c <> 0x0A /\ c <> 0x20.
Proof. rewrite charmap_spec. intros H. ranges. Qed.

Lemma ru_char_plain (c : N) : ru_char c = true -> c <> 0x0A /\ c <> 0x20.
Proof. rewrite ru_char_spec. intros H. ranges. Qed.

Lemma main_finished (scan : str -> list event) (isdigit : N -> bool)
  (morph_parse : str -> list Parse) (env : Env) (w : list (string * str)) :
  main scan isdigit morph_parse env = Finished w ->
  isdir env = true /\ glob env <> [] /\
  w = [ (TOKENS_OUT,
         tokens_file (aggregate isdigit morph_parse (collect scan (sorted (glob env)) env)));
        (LEMMAS_OUT,
         lemmas_file (aggregate isdigit morph_parse (collect scan (sorted (glob env)) env))) ].
Proof.
  unfold main. destruct (isdir env); simpl; [|discriminate].
  destruct (sorted (glob env)) as [|f files] eqn:E; [discriminate|].
  intros [= <-]. split; [reflexivity|]. split; [|reflexivity].
  intros Hg. rewrite Hg in E. discriminate.
Qed.

(** C4. When the run completes, the tokens file holds one token to a line,
    the lines in strictly increasing order of the tokens, and the lemmas
    file one line to a lemma, in strictly increasing order of the lemmas,
    each line being the lemma, a space, and the tokens of the lemma in
    strictly increasing order with one space between them; every line ends
    in a newline, and no token or lemma contains a space or a newline. *)
Theorem C4_output_files
  (scan : str -> list event) (isdigit : N -> bool) (morph_parse : str -> list Parse)
  (env : Env) (w : list (string * str)) :
  main scan isdigit morph_parse env = Finished w ->
  exists st,
    st = aggregate isdigit morph_parse (collect scan (sorted (glob env)) env) /\
    w = [ ("tokens.txt"%string,
           concat (map (fun t => t ++ [0x0A]) (tokens_list st)));
          ("lemmas.txt"%string,
           concat (map (fun l => l ++ [0x20] ++ join [0x20] (lemma_toks st l) ++ [0x0A])
                       (lemma_keys st))) ] /\
    StronglySorted str_lt (tokens_list st) /\
    StronglySorted str_lt (lemma_keys st) /\
    (forall t, t ∈ tokens_list st -> Forall (fun c => c <> 0x0A /\ c <> 0x20) t) /\
    (forall l, l ∈ lemma_keys st ->
       Forall (fun c => c <> 0x0A /\ c <> 0x20) l /\
       lemma_toks st l <> [] /\
       StronglySorted str_lt (lemma_toks st l) /\
       forall t, t ∈ lemma_toks st l -> Forall (fun c => c <> 0x0A /\ c <> 0x20) t).
Proof.
  intros Hmain. apply main_finished in Hmain as (_ & _ & ->).
  set (toks := collect scan (sorted (glob env)) env).
  exists (aggregate isdigit morph_parse toks).
  destruct (aggregate_inv isdigit morph_parse toks) as (Hset & Hmap & Hdom).
  assert (Htok : forall t, t ∈ toks -> Forall (fun c => c <> 0x0A /\ c <> 0x20) t).
  { intros t Ht. apply collect_elem in Ht as [text Ht].
    apply tokenize_wf in Ht as [_ Hall].
    eapply Forall_impl; [exact Hall|]. intros c. apply charmap_plain. }
  split; [reflexivity|]. split; [reflexivity|].
  split; [apply tokens_list_strict|]. split; [apply lemma_keys_strict|].
  split.
  - intros t Ht. apply tokens_list_elem, Hset in Ht as [Ht _]. auto.
  - intros l Hl. apply lemma_keys_elem in Hl as [S E].
    destruct (Hmap l S E) as [Hne HS].
    split; [|split; [|split]].
    + apply set_choose_L in Hne as [t Ht]. apply HS in Ht as [_ Hacc].
      apply accept_Some in Hacc as [_ (p & ps & _ & _ & Hr & ->)].
      apply lemma_rejected_false in Hr as [_ Hall].
      eapply Forall_impl; [exact Hall|]. intros c. apply ru_char_plain.
    + intros Hnil. apply set_choose_L in Hne as [t Ht].
      apply (lemma_toks_elem _ _ _ t E) in Ht. rewrite Hnil in Ht. inversion Ht.
    + apply lemma_toks_strict.
    + intros t Ht. apply (lemma_toks_elem _ _ _ t E), HS in Ht as [Ht _]. auto.
Qed.

(** C6. Without the pages directory the run raises the error that says so,
    and with the directory but no page file in it the error that says
    that, a different one; in both cases before anything is written, and
    the run ends with a status other than 0. *)
Theorem C6_setup_errors
  (scan : str -> list event) (isdigit : N -> bool) (morph_parse : str -> list Parse)
  (env : Env) :
  (isdir env = false ->
     main scan isdigit morph_parse env = Raised (FileNotFoundError no_dir_msg) []) /\
  (isdir env = true -> glob env = [] ->
     main scan isdigit morph_parse env = Raised (FileNotFoundError no_files_msg) []) /\
  no_dir_msg <> no_files_msg /\
  (forall e w, main scan isdigit morph_parse env = Raised e w ->
     w = [] /\ exit_status (main scan isdigit morph_parse env) <> 0%Z /\
     ((isdir env = false /\ e = FileNotFoundError no_dir_msg) \/
      (isdir env = true /\ glob env = [] /\ e = FileNotFoundError no_files_msg))).
Proof.
  split; [|split; [|split]].
  - intros H. unfold main. rewrite H. reflexivity.
  - intros H1 H2. unfold main. rewrite H1, H2. reflexivity.
  - intros H. vm_compute in H. discriminate.
  - intros e w H. rewrite H. unfold main in H.
    destruct (isdir env) eqn:Hd; simpl in H.
    + destruct (sorted (glob env)) as [|f files] eqn:E; [|discriminate].
      injection H as <- <-. split; [reflexivity|]. split; [discriminate|].
      right. split; [reflexivity|]. split; [|reflexivity].
      apply Permutation_nil_r. rewrite <- E. symmetry. apply sorted_perm.
    + injection H as <- <-. split; [reflexivity|]. split; [discriminate|].
      left. auto.
Qed.

Lemma C4_output_files_witness :
  StronglySorted str_lt
    (tokens_list (aggregate ascii_isdigit toy_parse
                    (collect simple_scan (sorted (glob toy_env)) toy_env))).
Proof.
  assert (Hm : main simple_scan ascii_isdigit toy_parse toy_env =
               Finished (written (main simple_scan ascii_isdigit toy_parse toy_env)))
    by (vm_compute; reflexivity).
  destruct (C4_output_files simple_scan ascii_isdigit toy_parse toy_env _ Hm)
    as (st & -> & _ & H & _).
  exact H.
Defined.

Lemma C6_setup_errors_witness :
  main simple_scan ascii_isdigit toy_parse (mkEnv false [] (fun _ => []))
    = Raised (FileNotFoundError no_dir_msg) [] /\
  main simple_scan ascii_isdigit toy_parse (mkEnv true [] (fun _ => []))
    = Raised (FileNotFoundError no_files_msg) [].
Proof.
  split.
  - apply (C6_setup_errors simple_scan ascii_isdigit toy_parse
             (mkEnv false [] (fun _ => []))).
    reflexivity.
  - destruct (C6_setup_errors simple_scan ascii_isdigit toy_parse
                (mkEnv true [] (fun _ => []))) as (_ & H & _).
    apply H; reflexivity.
Defined.

Lemma collect_perm (scan : str -> list event) (env : Env) (files files' : list str) :
  files ≡ₚ files' -> collect scan files env ≡ₚ collect scan files' env.
Proof. intros H. unfold collect. apply Permutation_flat_map. exact H. Qed.

(** C7. The containers and the two files are a function of the tokens read,
    whatever their order: permuting the tokens of the sequence, or the
    files they are collected from, changes neither the token set, nor the
    lemma index, nor a file; and two runs on the same pages, found by
    [glob] in any order, end the same way. *)
Theorem C7_order_independent
  (scan : str -> list event) (isdigit : N -> bool) (morph_parse : str -> list Parse) :
  (forall toks toks', toks ≡ₚ toks' ->
     tokens_set (aggregate isdigit morph_parse toks)
       = tokens_set (aggregate isdigit morph_parse toks') /\
     lemma_to_tokens (aggregate isdigit morph_parse toks)
       = lemma_to_tokens (aggregate isdigit morph_parse toks') /\
     tokens_file (aggregate isdigit morph_parse toks)
       = tokens_file (aggregate isdigit morph_parse toks') /\
     lemmas_file (aggregate isdigit morph_parse toks)
       = lemmas_file (aggregate isdigit morph_parse toks')) /\
  (forall env files files', files ≡ₚ files' ->
     aggregate isdigit morph_parse (collect scan files env)
       = aggregate isdigit morph_parse (collect scan files' env)) /\
  (forall env env',
     isdir env = isdir env' -> glob env ≡ₚ glob env' ->
     (forall path, read env path = read env' path) ->
     main scan isdigit morph_parse env = main scan isdigit morph_parse env').
Proof.
  split; [|split].
  - intros toks toks' Hp.
    rewrite (aggregate_perm isdigit morph_parse toks toks' Hp). auto.
  - intros env files files' Hp. apply aggregate_perm, collect_perm, Hp.
  - intros env env' Hd Hg Hr. unfold main.
    rewrite Hd, (sorted_unique _ _ Hg).
    assert (Hc : forall files, collect scan files env = collect scan files env').
    { intros files. unfold collect. apply flat_map_ext. intros path.
      rewrite Hr. reflexivity. }
    rewrite Hc. reflexivity.
Qed.

Lemma C7_order_independent_witness :
  main simple_scan ascii_isdigit toy_parse toy_env
  = main simple_scan ascii_isdigit toy_parse toy_env'.
Proof.
  destruct (C7_order_independent simple_scan ascii_isdigit toy_parse) as (_ & _ & H).
  apply H.
  - reflexivity.
  - apply perm_swap.
  - intros path. reflexivity.
Defined.

(** ** Examples *)

Example tokenize_example :
  tokenize (utf8 "Привет, мир! Ёж и 123abc") = [utf8 "привет"; utf8 "мир"; utf8 "ёж"].
Proof. vm_compute. reflexivity. Qed.

Example simple_scan_scenario : simple_scan scenario_page = scenario_events.
Proof. vm_compute. reflexivity. Qed.

Example main_example :
  main simple_scan ascii_isdigit toy_parse toy_env =
  Finished [ ("tokens.txt"%string, utf8 "мир
миру
привет
шёл
");
             ("lemmas.txt"%string, utf8 "идти шёл
мир мир миру
привет привет
") ].
Proof. vm_compute. reflexivity. Qed.

(** * Further properties *)

(** ** tokenize *)

Lemma charmap_lowercase (c : N) : charmap c = true -> tolower c = c.
Proof.
  rewrite charmap_spec. intros H. apply tolower_fix; ranges.
Qed.

Lemma lower_fixed (t : str) : Forall (fun c => charmap c = true) t -> lower t = t.
Proof.
  induction 1 as [|c t Hc _ IH]; [reflexivity|].
  unfold lower in *. simpl. rewrite (charmap_lowercase c Hc), IH. reflexivity.
Qed.

Lemma lower_idem (s : str) : lower (lower s) = lower s.
Proof.
  unfold lower. rewrite map_map. apply map_ext. intros c. apply tolower_idem.
Qed.

Lemma ru_char_tolower (c : N) : ru_char (tolower c) = ru_char c.
Proof. unfold ru_char. rewrite tolower_idem. reflexivity. Qed.

Lemma lower_class (a : str) :
  Forall (fun c => ru_char c = true) a -> Forall (fun c => ru_char c = true) (lower a).
Proof.
  induction 1 as [|c a Hc _ IH]; unfold lower in *; simpl; constructor; [|exact IH].
  rewrite ru_char_tolower. exact Hc.
Qed.

(** The scan across a character outside the class. *)
Lemma findall_from_sep (a run b : str) (c : N) :
  ru_char c = false ->
  findall_from run (a ++ c :: b) = findall_from run a ++ findall_from [] b.
Proof.
  intros Hc. revert run. induction a as [|x a IH]; intros run; simpl.
  - rewrite Hc. reflexivity.
  - destruct (ru_char x); [apply IH|]. rewrite IH, app_assoc. reflexivity.
Qed.

Lemma tokenize_sep (a b : str) (c : N) :
  ru_char (tolower c) = false -> tokenize (a ++ c :: b) = tokenize a ++ tokenize b.
Proof.
  intros Hc. unfold tokenize, RE_RU_WORD_findall, lower.
  rewrite map_app. simpl. rewrite (findall_from_sep _ _ _ _ Hc).
  apply List.filter_app.
Qed.

Lemma tokenize_run (a : str) :
  Forall (fun c => ru_char c = true) a ->
  tokenize a = if len_ok a then [lower a] else [].
Proof.
  intros Ha. unfold tokenize. rewrite (findall_last_run _ (lower_class a Ha)).
  assert (Hl : length (lower a) = length a) by (unfold lower; apply length_map).
  assert (Hok : len_ok (lower a) = len_ok a) by (unfold len_ok; rewrite Hl; reflexivity).
  unfold emit. rewrite Hl.
  destruct (2 <=? length a)%nat eqn:E2.
  - cbn [List.filter]. rewrite Hok. destruct (len_ok a); reflexivity.
  - unfold len_ok. rewrite E2. reflexivity.
Qed.

(** X1. Every token has 2 to 40 characters, each of them one of the 33
    lowercase letters а..я, ё or one of the seven letters U+1C80..U+1C86,
    and lowercasing leaves it as it is. *)
Theorem X1_tokens_well_formed (text t : str) :
  t ∈ tokenize text ->
  (2 <= length t <= 40)%nat /\
  Forall (fun c => 0x430 <= c <= 0x44F \/ c = 0x451 \/ 0x1C80 <= c <= 0x1C86) t /\
  lower t = t.
Proof.
  intros Ht. apply tokenize_wf in Ht as [Hlen Hall].
  split; [exact Hlen|]. split; [|apply lower_fixed, Hall].
  eapply Forall_impl; [exact Hall|]. intros c H. cbv beta in H.
  rewrite charmap_spec in H. ranges.
Qed.

Lemma X1_tokens_well_formed_witness : lower (utf8 "ёж") = utf8 "ёж".
Proof.
  apply (X1_tokens_well_formed (utf8 "Ёж, ЁЖ и уж")).
  vm_compute. apply list_elem_of_here.
Defined.

(** X2. A token is a fixed point of the tokenizer: tokenizing a token the
    tokenizer has produced gives that token alone. *)
Theorem X2_token_is_fixed_point (text t : str) :
  t ∈ tokenize text -> tokenize t = [t].
Proof.
  intros Ht. apply tokenize_wf in Ht as [Hlen Hall].
  rewrite tokenize_run.
  - unfold len_ok. destruct (Nat.leb_spec 2 (length t)); [|lia].
    destruct (Nat.leb_spec (length t) 40); [|lia]. simpl.
    rewrite (lower_fixed t Hall). reflexivity.
  - eapply Forall_impl; [exact Hall|]. apply charmap_ru_char.
Qed.

Lemma X2_token_is_fixed_point_witness : tokenize (utf8 "мир") = [utf8 "мир"].
Proof.
  apply (X2_token_is_fixed_point (utf8 "Миру - МИР!")).
  vm_compute. apply list_elem_of_further, list_elem_of_here.
Defined.

(** X3. The tokenizer does not see case: a text and its lowercase form have
    the same tokens. *)
Theorem X3_tokenize_ignores_case (text : str) :
  tokenize (lower text) = tokenize text.
Proof. unfold tokenize. rewrite lower_idem. reflexivity. Qed.

(** X4. A character that the pattern does not match, once lowercased, cuts
    the text in two for the tokenizer: the tokens of the whole are those of
    the part before it followed by those of the part after it. *)
Theorem X4_tokenize_splits_at_separator (a b : str) (c : N) :
  ru_char (tolower c) = false ->
  tokenize (a ++ c :: b) = tokenize a ++ tokenize b.
Proof. apply tokenize_sep. Qed.

Lemma X4_tokenize_splits_at_separator_witness :
  tokenize (utf8 "при" ++ 0x2D :: utf8 "вет") = tokenize (utf8 "при") ++ tokenize (utf8 "вет").
Proof. apply X4_tokenize_splits_at_separator. reflexivity. Defined.

(** X5. A text made of pattern letters only is one run: it gives one token,
    its lowercase form, when it has 2 to 40 letters, and nothing otherwise;
    a longer run is dropped whole, neither cut nor shortened. *)
Theorem X5_tokenize_single_run (a : str) :
  Forall (fun c => ru_char c = true) a ->
  ((2 <= length a <= 40)%nat -> tokenize a = [lower a]) /\
  ((length a < 2)%nat -> tokenize a = []) /\
  ((40 < length a)%nat -> tokenize a = []).
Proof.
  intros Ha. rewrite (tokenize_run a Ha). unfold len_ok.
  destruct (Nat.leb_spec 2 (length a)), (Nat.leb_spec (length a) 40); simpl;
    repeat split; intros; try reflexivity; lia.
Qed.

Lemma X5_tokenize_single_run_witness :
  tokenize (repeat 0x430 41) = [] /\ tokenize (utf8 "Я") = [].
Proof.
  split.
  - assert (Ha : Forall (fun c => ru_char c = true) (repeat 0x430 41)).
    { apply Forall_forall. intros c Hc. apply list_elem_of_In, repeat_spec in Hc.
      subst c. reflexivity. }
    destruct (X5_tokenize_single_run (repeat 0x430 41) Ha) as (_ & _ & H).
    apply H. rewrite repeat_length. lia.
  - assert (Ha : Forall (fun c => ru_char c = true) (utf8 "Я"))
      by (repeat constructor).
    destruct (X5_tokenize_single_run (utf8 "Я") Ha) as (_ & H & _).
    apply H. vm_compute. lia.
Defined.

(** X6. The lower bounds of the two length tests never reject: a match of
    the pattern has two characters already, so line 80 keeps the matches of
    at most 40 characters, and line 128 rejects a lemma that the pattern
    does not match in full or that is longer than 40. *)
Theorem X6_length_lower_bounds_redundant :
  (forall text,
     tokenize text =
     List.filter (fun t => (length t <=? 40)%nat) (RE_RU_WORD_findall (lower text))) /\
  (forall lemma,
     lemma_rejected lemma =
     negb (RE_RU_WORD_fullmatch lemma) || negb (length lemma <=? 40)%nat).
Proof.
  split.
  - intros text. unfold tokenize. apply List.filter_ext_in. intros t Ht.
    apply list_elem_of_In, findall_from_elem in Ht as [Hlen _]; [|constructor].
    unfold len_ok. destruct (Nat.leb_spec 2 (length t)); [reflexivity|lia].
  - intros lemma. unfold lemma_rejected, RE_RU_WORD_fullmatch, len_ok.
    destruct (forallb ru_char lemma), (2 <=? length lemma)%nat,
      (length lemma <=? 40)%nat; reflexivity.
Qed.

(** ** The extractor and the tokenizer together *)

Lemma visible_app (evs1 evs2 : list event) (k : Z) :
  visible k (evs1 ++ evs2) =
  visible k evs1 ++ visible (fold_left next_depth evs1 k) evs2.
Proof.
  revert k. induction evs1 as [|e evs1 IH]; intros k; [reflexivity|].
  destruct e as [t|t|d]; simpl; rewrite ?IH; try reflexivity.
  destruct ((k =? 0)%Z && nonempty d); reflexivity.
Qed.

Lemma tokenize_join (parts : list str) :
  tokenize (join [0x20] parts) = flat_map tokenize parts.
Proof.
  induction parts as [|p parts IH]; [reflexivity|].
  destruct parts as [|q rest].
  - simpl. rewrite app_nil_r. reflexivity.
  - change (join [0x20] (p :: q :: rest)) with (p ++ 0x20 :: join [0x20] (q :: rest)).
    rewrite tokenize_sep by reflexivity. rewrite IH. reflexivity.
Qed.

(** X7. No token spans two text fragments: the tokens of a page are those
    of its visible fragments, fragment by fragment, because the fragments
    are joined by a space.  Letters that a tag separates, such as "при" and
    "вет" around a closing b tag, are never read as one word. *)
Theorem X7_tokens_fragment_by_fragment (scan : str -> list event) (html : str) :
  tokenize (html_to_text scan html) = flat_map tokenize (visible 0 (scan html)).
Proof.
  change (html_to_text scan html) with (text_of_events (scan html)).
  rewrite text_of_events_visible. apply tokenize_join.
Qed.

Lemma hidden_unclosed (rest : list event) (k : Z) :
  (1 <= k)%Z -> Forall (fun e => closes_skip e = false) rest -> visible k rest = [].
Proof.
  revert k. induction rest as [|e rest IH]; intros k Hk Hall; [reflexivity|].
  inversion Hall as [|? ? He Hrest]; subst.
  destruct e as [t|t|d]; simpl in *.
  - destruct (is_skip_tag (lower t)); apply IH; auto; lia.
  - rewrite He. simpl. apply IH; auto.
  - destruct (Z.eqb_spec k 0); [lia|]. simpl. apply IH; auto.
Qed.

(** X8. A script, style or noscript tag that is never closed hides the rest
    of the page: the text is that of the part before the tag. *)
Theorem X8_unclosed_skip_tag_hides_rest (pre rest : list event) (t : str) :
  lower t ∈ skip_tags ->
  Forall (fun e => closes_skip e = false) rest ->
  text_of_events (pre ++ starttag t :: rest) = text_of_events pre.
Proof.
  intros Ht Hrest. rewrite !text_of_events_visible, visible_app.
  assert (Hs : is_skip_tag (lower t) = true)
    by (unfold is_skip_tag; apply bool_decide_eq_true; exact Ht).
  assert (Hk : (0 <= fold_left next_depth pre 0)%Z)
    by (apply fold_next_depth_nonneg; lia).
  assert (Hhid : visible (fold_left next_depth pre 0%Z) (starttag t :: rest) = []).
  { simpl. rewrite Hs. apply hidden_unclosed; [lia|exact Hrest]. }
  rewrite Hhid, app_nil_r. reflexivity.
Qed.

Lemma X8_unclosed_skip_tag_hides_rest_witness :
  text_of_events ([data (utf8 "a")] ++ starttag (utf8 "STYLE")
                    :: [data (utf8 "b"); endtag (utf8 "p"); data (utf8 "c")])
  = text_of_events [data (utf8 "a")].
Proof.
  apply X8_unclosed_skip_tag_hides_rest.
  - apply list_elem_of_In. vm_compute. auto.
  - repeat constructor.
Defined.

Lemma visible_relevant (evs : list event) (k : Z) :
  visible k (List.filter relevant evs) = visible k evs.
Proof.
  revert k. induction evs as [|e evs IH]; intros k; [reflexivity|].
  destruct e as [t|t|d]; simpl.
  - destruct (is_skip_tag (lower t)) eqn:E; simpl; rewrite ?E; apply IH.
  - destruct (is_skip_tag (lower t)) eqn:E; simpl; rewrite ?E; simpl; apply IH.
  - destruct ((k =? 0)%Z && nonempty d); rewrite IH; reflexivity.
Qed.

(** X9. Tags other than script, style and noscript are ignored: taking
    them out of a page leaves its text as it is. *)
Theorem X9_other_tags_ignored (evs : list event) :
  text_of_events (List.filter relevant evs) = text_of_events evs.
Proof. rewrite !text_of_events_visible, visible_relevant. reflexivity. Qed.

Lemma visible_data (evs : list event) (k : Z) :
  Forall (fun d => d <> [] /\ data d ∈ evs) (visible k evs).
Proof.
  revert k. induction evs as [|e evs IH]; intros k; [constructor|].
  assert (Hmono : forall j, Forall (fun d => d <> [] /\ data d ∈ e :: evs) (visible j evs)).
  { intros j. eapply Forall_impl; [apply IH|]. intros d [H1 H2].
    split; [exact H1|]. apply list_elem_of_further. exact H2. }
  destruct e as [t|t|d]; simpl; try apply Hmono.
  destruct ((k =? 0)%Z && nonempty d) eqn:E; [|apply Hmono].
  constructor; [|apply Hmono]. split; [|apply list_elem_of_here].
  apply andb_true_iff in E as [_ E]. intros ->. discriminate.
Qed.

(** X10. The extractor only adds: after any callbacks the fragments it had
    are still there, in place, followed by the new ones, each of which is
    a text of those callbacks and is not empty. *)
Theorem X10_fragments_only_added (self : HTMLTextExtractor) (evs : list event) :
  exists added,
    _parts (feed self evs) = _parts self ++ added /\
    Forall (fun d => d <> [] /\ data d ∈ evs) added.
Proof.
  exists (visible (_skip self) evs). rewrite feed_state. split; [reflexivity|].
  apply visible_data.
Qed.

(** ** The aggregator *)

Section AggregatorContent.
Context (isdigit : N -> bool) (morph_parse : str -> list Parse).

Local Abbreviation accepted := (accept isdigit morph_parse).
Local Abbreviation aggr := (aggregate isdigit morph_parse).

Lemma key_iff_accepted (toks : list str) (l : str) :
  is_Some (lemma_to_tokens (aggr toks) !! l) <->
  exists t, t ∈ toks /\ accepted t = Some l.
Proof.
  destruct (aggregate_inv isdigit morph_parse toks) as (Hset & Hmap & Hdom).
  split.
  - intros [S E]. destruct (Hmap l S E) as [Hne HS].
    apply set_choose_L in Hne as [t Ht]. exists t. apply HS. exact Ht.
  - intros (t & Ht & Hacc). exact (Hdom t l Ht Hacc).
Qed.

Lemma aggregate_same_elements (toks toks' : list str) :
  (forall t, t ∈ toks <-> t ∈ toks') -> aggr toks = aggr toks'.
Proof.
  intros Hsame.
  destruct (aggregate_inv isdigit morph_parse toks) as (Hset & Hmap & _).
  destruct (aggregate_inv isdigit morph_parse toks') as (Hset' & Hmap' & _).
  apply agg_eq.
  - apply set_eq. intros t. rewrite Hset, Hset', Hsame. reflexivity.
  - intros l.
    destruct (lemma_to_tokens (aggr toks) !! l) as [S|] eqn:E,
             (lemma_to_tokens (aggr toks') !! l) as [S'|] eqn:E'.
    + f_equal. apply set_eq. intros t.
      destruct (Hmap l S E) as [_ HS]. destruct (Hmap' l S' E') as [_ HS'].
      rewrite HS, HS', Hsame. reflexivity.
    + exfalso. assert (Hk : is_Some (lemma_to_tokens (aggr toks) !! l)) by eauto.
      apply key_iff_accepted in Hk as (t & Ht & Hacc).
      assert (Hk' : is_Some (lemma_to_tokens (aggr toks') !! l)).
      { apply key_iff_accepted. exists t. split; [apply Hsame; exact Ht|exact Hacc]. }
      rewrite E' in Hk'. destruct Hk' as [? [=]].
    + exfalso. assert (Hk : is_Some (lemma_to_tokens (aggr toks') !! l)) by eauto.
      apply key_iff_accepted in Hk as (t & Ht & Hacc).
      assert (Hk' : is_Some (lemma_to_tokens (aggr toks) !! l)).
      { apply key_iff_accepted. exists t. split; [apply Hsame; exact Ht|exact Hacc]. }
      rewrite E in Hk'. destruct Hk' as [? [=]].
    + reflexivity.
Qed.

Lemma agg_le_refl (st : Agg) : agg_le st st.
Proof. split; [reflexivity|]. intros l S E. exists S. split; [exact E|reflexivity]. Qed.

Lemma agg_le_trans (st1 st2 st3 : Agg) : agg_le st1 st2 -> agg_le st2 st3 -> agg_le st1 st3.
Proof.
  intros [H1 M1] [H2 M2]. split; [etransitivity; eassumption|].
  intros l S E. destruct (M1 l S E) as (S' & E' & HS).
  destruct (M2 l S' E') as (S'' & E'' & HS'). exists S''.
  split; [exact E''|etransitivity; eassumption].
Qed.

Lemma agg_step_le (st : Agg) (tok : str) :
  agg_le st (agg_step isdigit morph_parse st tok).
Proof.
  rewrite agg_step_accept. destruct (accepted tok) as [l|]; [|apply agg_le_refl].
  split.
  - rewrite record_token_tokens. apply union_subseteq_r.
  - intros k S E. rewrite record_token_lookup.
    destruct (decide (k = l)) as [->|Hne]; [|exists S; split; [exact E|reflexivity]].
    rewrite E. simpl. eexists. split; [reflexivity|]. apply union_subseteq_r.
Qed.

Lemma fold_step_le (toks : list str) (st : Agg) :
  agg_le st (fold_left (agg_step isdigit morph_parse) toks st).
Proof.
  revert st. induction toks as [|tok toks IH]; intros st; [apply agg_le_refl|].
  simpl. eapply agg_le_trans; [apply agg_step_le|apply IH].
Qed.

Lemma aggregate_sizes (toks : list str) :
  (size (lemma_to_tokens (aggr toks)) <= size (tokens_set (aggr toks)))%nat.
Proof.
  induction toks as [|tok toks IH] using rev_ind; [reflexivity|].
  destruct (aggregate_inv isdigit morph_parse toks) as (Hset & Hmap & Hdom).
  rewrite aggregate_snoc, agg_step_accept.
  destruct (accepted tok) as [l|] eqn:Hacc; [|exact IH].
  rewrite record_token_tokens, record_token_map.
  destruct (lemma_to_tokens (aggr toks) !! l) as [S|] eqn:E.
  - rewrite map_size_insert_Some by eauto.
    etransitivity; [exact IH|]. apply subseteq_size, union_subseteq_r.
  - rewrite map_size_insert_None by exact E.
    assert (Hnew : tok ∉ tokens_set (aggr toks)).
    { intros Hin. apply Hset in Hin as [Hin _].
      destruct (Hdom tok l Hin Hacc) as [S HS]. congruence. }
    rewrite size_union by (apply disjoint_singleton_l; exact Hnew).
    rewrite size_singleton. simpl. lia.
Qed.

End AggregatorContent.

(** X11. What the two containers hold after the loop: the token set is the
    tokens of the sequence that pass the filters; a lemma is a key of the
    index when a token of the sequence passes the filters with it; and the
    set kept under a key is the tokens of the sequence that pass with that
    lemma. *)
Theorem X11_aggregate_content
  (isdigit : N -> bool) (morph_parse : str -> list Parse) (toks : list str) :
  (forall t, t ∈ tokens_set (aggregate isdigit morph_parse toks) <->
     t ∈ toks /\ is_Some (accept isdigit morph_parse t)) /\
  (forall l, is_Some (lemma_to_tokens (aggregate isdigit morph_parse toks) !! l) <->
     exists t, t ∈ toks /\ accept isdigit morph_parse t = Some l) /\
  (forall l S, lemma_to_tokens (aggregate isdigit morph_parse toks) !! l = Some S ->
     forall t, t ∈ S <-> t ∈ toks /\ accept isdigit morph_parse t = Some l).
Proof.
  destruct (aggregate_inv isdigit morph_parse toks) as (Hset & Hmap & Hdom).
  split; [exact Hset|]. split; [apply key_iff_accepted|].
  intros l S E. apply (Hmap l S E).
Qed.

Lemma X11_aggregate_content_witness :
  utf8 "шёл" ∈ [utf8 "шёл"; utf8 "во"] /\
  accept ascii_isdigit toy_parse (utf8 "шёл") = Some (utf8 "идти").
Proof.
  destruct (X11_aggregate_content ascii_isdigit toy_parse [utf8 "шёл"; utf8 "во"])
    as (_ & _ & H).
  apply (H (utf8 "идти") {[utf8 "шёл"]}).
  - vm_compute. reflexivity.
  - apply elem_of_singleton. reflexivity.
Defined.

(** X12. The containers depend on which tokens occur in the sequence, not
    on how often or where: two sequences with the same tokens give the
    same token set and the same index. *)
Theorem X12_repeated_tokens_absorbed
  (isdigit : N -> bool) (morph_parse : str -> list Parse) (toks toks' : list str) :
  (forall t, t ∈ toks <-> t ∈ toks') ->
  aggregate isdigit morph_parse toks = aggregate isdigit morph_parse toks'.
Proof. apply aggregate_same_elements. Qed.

Lemma X12_repeated_tokens_absorbed_witness :
  aggregate ascii_isdigit toy_parse [utf8 "мира"; utf8 "шёл"; utf8 "мира"]
  = aggregate ascii_isdigit toy_parse [utf8 "шёл"; utf8 "мира"].
Proof.
  apply X12_repeated_tokens_absorbed. intros t.
  rewrite !elem_of_cons. rewrite !elem_of_nil. tauto.
Defined.

(** X13. The loop never takes anything back: from any state of the two
    containers, after any tokens, the token set has the tokens it had, the
    index the keys it had, and each key the tokens it had. *)
Theorem X13_loop_only_adds
  (isdigit : N -> bool) (morph_parse : str -> list Parse) (st : Agg) (toks : list str) :
  tokens_set st ⊆ tokens_set (fold_left (agg_step isdigit morph_parse) toks st) /\
  forall l S, lemma_to_tokens st !! l = Some S ->
    exists S',
      lemma_to_tokens (fold_left (agg_step isdigit morph_parse) toks st) !! l = Some S' /\
      S ⊆ S'.
Proof. apply fold_step_le. Qed.

Lemma X13_loop_only_adds_witness :
  exists S',
    lemma_to_tokens
      (fold_left (agg_step ascii_isdigit toy_parse) [utf8 "миру"; utf8 "во"]
         (mkAgg {[utf8 "мира"]} {[utf8 "мир" := {[utf8 "мира"]}]})) !! utf8 "мир"
    = Some S' /\ {[utf8 "мира"]} ⊆ S'.
Proof.
  destruct (X13_loop_only_adds ascii_isdigit toy_parse
              (mkAgg {[utf8 "мира"]} {[utf8 "мир" := {[utf8 "мира"]}]})
              [utf8 "миру"; utf8 "во"]) as [_ H].
  apply H. vm_compute. reflexivity.
Defined.

(** X14. Only the parse at index 0 counts: two analyzers that agree on the
    first parse of every token of the sequence, or on its absence, give the
    same containers, whatever their other parses. *)
Theorem X14_only_first_parse_counts
  (isdigit : N -> bool) (parse1 parse2 : str -> list Parse) (toks : list str) :
  (forall t, t ∈ toks -> head (parse1 t) = head (parse2 t)) ->
  aggregate isdigit parse1 toks = aggregate isdigit parse2 toks.
Proof.
  intros Hhead. unfold aggregate. generalize empty_agg.
  induction toks as [|tok toks IH]; intros st; [reflexivity|].
  simpl.
  assert (Hstep : agg_step isdigit parse1 st tok = agg_step isdigit parse2 st tok).
  { unfold agg_step. pose proof (Hhead tok (list_elem_of_here _ _)) as H.
    destruct (has_digit isdigit tok); [reflexivity|].
    destruct (parse1 tok) as [|p1 ps1], (parse2 tok) as [|p2 ps2];
      simpl in H; try discriminate; [reflexivity|].
    injection H as ->. reflexivity. }
  rewrite Hstep. apply IH. intros t Ht. apply Hhead, list_elem_of_further, Ht.
Qed.

Lemma X14_only_first_parse_counts_witness :
  aggregate ascii_isdigit toy_parse [utf8 "мира"; utf8 "во"]
  = aggregate ascii_isdigit (fun t => firstn 1 (toy_parse t)) [utf8 "мира"; utf8 "во"].
Proof.
  apply X14_only_first_parse_counts. intros t Ht.
  destruct (toy_parse t); reflexivity.
Defined.

(** X15. The two numbers of the summary are the number of lines of the
    tokens file and of the lemmas file, that is, the size of the token set
    and of the index; there are never more lemmas than tokens, and one
    number is 0 exactly when the other is. *)
Theorem X15_summary_counts
  (isdigit : N -> bool) (morph_parse : str -> list Parse) (toks : list str) :
  fst (summary_counts (aggregate isdigit morph_parse toks))
    = size (tokens_set (aggregate isdigit morph_parse toks)) /\
  snd (summary_counts (aggregate isdigit morph_parse toks))
    = length (lemma_keys (aggregate isdigit morph_parse toks)) /\
  (snd (summary_counts (aggregate isdigit morph_parse toks))
     <= fst (summary_counts (aggregate isdigit morph_parse toks)))%nat /\
  (fst (summary_counts (aggregate isdigit morph_parse toks)) = 0%nat <->
   snd (summary_counts (aggregate isdigit morph_parse toks)) = 0%nat).
Proof.
  set (st := aggregate isdigit morph_parse toks).
  assert (H1 : fst (summary_counts st) = size (tokens_set st)).
  { unfold summary_counts, tokens_list. simpl.
    rewrite (Permutation_length (sorted_perm _)). reflexivity. }
  assert (H2 : length (lemma_keys st) = size (lemma_to_tokens st)).
  { unfold lemma_keys. rewrite (Permutation_length (sorted_perm _)).
    rewrite length_map. apply length_map_to_list. }
  assert (H3 : (size (lemma_to_tokens st) <= size (tokens_set st))%nat)
    by apply aggregate_sizes.
  split; [exact H1|]. split; [simpl; symmetry; exact H2|].
  rewrite H1. simpl. split; [exact H3|]. split; [lia|].
  intros Hm. apply map_size_empty_inv in Hm.
  destruct (size (tokens_set st)) eqn:Hs; [reflexivity|]. exfalso.
  assert (Hpos : (0 < size (tokens_set st))%nat) by lia.
  apply size_pos_elem_of in Hpos as [t Ht].
  destruct (aggregate_inv isdigit morph_parse toks) as (Hset & _ & Hdom).
  apply Hset in Ht as [Ht [l Hl]]. destruct (Hdom t l Ht Hl) as [S HS].
  fold st in HS. rewrite Hm, lookup_empty in HS. discriminate.
Qed.

(** ** The run and its files *)

Lemma collect_elem_iff (scan : str -> list event) (files : list str) (env : Env) (t : str) :
  t ∈ collect scan files env <->
  exists path, path ∈ files /\ t ∈ tokenize (html_to_text scan (read env path)).
Proof.
  unfold collect. rewrite list_elem_of_In, in_flat_map. split.
  - intros (path & H1 & H2). exists path. rewrite !list_elem_of_In. auto.
  - intros (path & H1 & H2). exists path. rewrite <- !list_elem_of_In. auto.
Qed.

(** X16. What the run writes, from end to end: a token is a line of the
    tokens file when the tokenizer finds it in the text of one of the pages
    and it passes the filters; it is a token of the line of a lemma when,
    besides, that lemma is the one it passes with. *)
Theorem X16_files_content
  (scan : str -> list event) (isdigit : N -> bool) (morph_parse : str -> list Parse)
  (env : Env) :
  (forall t,
     t ∈ tokens_list (aggregate isdigit morph_parse (collect scan (sorted (glob env)) env)) <->
     (exists path, path ∈ glob env /\ t ∈ tokenize (html_to_text scan (read env path))) /\
     is_Some (accept isdigit morph_parse t)) /\
  (forall l t,
     l ∈ lemma_keys (aggregate isdigit morph_parse (collect scan (sorted (glob env)) env)) ->
     (t ∈ lemma_toks (aggregate isdigit morph_parse (collect scan (sorted (glob env)) env)) l <->
      (exists path, path ∈ glob env /\ t ∈ tokenize (html_to_text scan (read env path))) /\
      accept isdigit morph_parse t = Some l)).
Proof.
  set (toks := collect scan (sorted (glob env)) env).
  destruct (aggregate_inv isdigit morph_parse toks) as (Hset & Hmap & Hdom).
  assert (Hin : forall t, t ∈ toks <->
            exists path, path ∈ glob env /\ t ∈ tokenize (html_to_text scan (read env path))).
  { intros t. unfold toks. rewrite collect_elem_iff.
    split; intros (path & H1 & H2); exists path; split; auto.
    - apply sorted_elem. exact H1.
    - apply sorted_elem. exact H1. }
  split.
  - intros t. rewrite tokens_list_elem, Hset, Hin. reflexivity.
  - intros l t Hl. apply lemma_keys_elem in Hl as [S E].
    rewrite (lemma_toks_elem _ _ _ t E). destruct (Hmap l S E) as [_ HS].
    rewrite HS, Hin. reflexivity.
Qed.

Lemma fold_step_rejected (isdigit : N -> bool) (morph_parse : str -> list Parse)
  (toks : list str) (st : Agg) :
  (forall t, t ∈ toks -> accept isdigit morph_parse t = None) ->
  fold_left (agg_step isdigit morph_parse) toks st = st.
Proof.
  revert st. induction toks as [|tok toks IH]; intros st Hrej; [reflexivity|].
  simpl. rewrite agg_step_accept, (Hrej tok (list_elem_of_here _ _)).
  apply IH. intros t Ht. apply Hrej, list_elem_of_further, Ht.
Qed.

(** X17. Pages without a word that passes the filters are no error: with
    the directory and at least one page file, the run completes and writes
    both files, empty. *)
Theorem X17_no_word_gives_empty_files
  (scan : str -> list event) (isdigit : N -> bool) (morph_parse : str -> list Parse)
  (env : Env) :
  isdir env = true -> glob env <> [] ->
  (forall path t, path ∈ glob env ->
     t ∈ tokenize (html_to_text scan (read env path)) ->
     accept isdigit morph_parse t = None) ->
  main scan isdigit morph_parse env
  = Finished [ ("tokens.txt"%string, []); ("lemmas.txt"%string, []) ].
Proof.
  intros Hd Hg Hrej. unfold main. rewrite Hd. simpl.
  destruct (sorted (glob env)) as [|f files] eqn:E.
  - exfalso. apply Hg. apply Permutation_nil_r. rewrite <- E. symmetry.
    apply sorted_perm.
  - unfold aggregate. rewrite fold_step_rejected; [reflexivity|].
    intros t Ht. apply collect_elem_iff in Ht as (path & H1 & H2).
    apply (Hrej path t); [|exact H2]. apply sorted_elem. rewrite E. exact H1.
Qed.

Lemma X17_no_word_gives_empty_files_witness :
  main simple_scan ascii_isdigit toy_parse
    (mkEnv true [utf8 "pages/1.txt"] (fun _ => utf8 "<p>Во 2024, эх!</p>"))
  = Finished [ ("tokens.txt"%string, []); ("lemmas.txt"%string, []) ].
Proof.
  apply X17_no_word_gives_empty_files.
  - reflexivity.
  - discriminate.
  - intros path t _ Ht. vm_compute in Ht.
    apply list_elem_of_In in Ht. simpl in Ht.
    destruct Ht as [<-|[<-|[]]]; vm_compute; reflexivity.
Defined.

(** ** Reading the files back *)

Lemma split_from_field (sep : N) (x field rest : str) :
  Forall (fun c => c <> sep) x ->
  split_from sep field (x ++ rest) = split_from sep (field ++ x) rest.
Proof.
  revert field. induction x as [|c x IH]; intros field Hx; simpl.
  - rewrite app_nil_r. reflexivity.
  - inversion Hx as [|? ? Hc Hx']; subst.
    destruct (N.eqb_spec c sep); [contradiction|].
    rewrite IH by exact Hx'. rewrite <- app_assoc. reflexivity.
Qed.

Lemma split_from_sep (sep : N) (field rest : str) :
  split_from sep field (sep :: rest) = field :: split_from sep [] rest.
Proof. simpl. rewrite N.eqb_refl. reflexivity. Qed.

Lemma split_terminated (sep : N) (xs : list str) :
  Forall (Forall (fun c => c <> sep)) xs ->
  split sep (concat (map (fun x => x ++ [sep]) xs)) = xs ++ [[]].
Proof.
  unfold split. induction 1 as [|x xs Hx _ IH]; [reflexivity|].
  simpl. rewrite <- app_assoc, split_from_field by exact Hx.
  simpl. rewrite N.eqb_refl, IH. reflexivity.
Qed.

Lemma split_join (sep : N) (xs : list str) :
  xs <> [] -> Forall (Forall (fun c => c <> sep)) xs ->
  split sep (join [sep] xs) = xs.
Proof.
  unfold split. intros Hne Hall. induction Hall as [|x xs Hx Hxs IH]; [contradiction|].
  destruct xs as [|y ys].
  - simpl. rewrite <- (app_nil_r x) at 1. rewrite split_from_field by exact Hx.
    reflexivity.
  - change (join [sep] (x :: y :: ys)) with (x ++ sep :: join [sep] (y :: ys)).
    rewrite split_from_field by exact Hx. rewrite split_from_sep, IH by discriminate.
    reflexivity.
Qed.

Lemma join_forall (P : N -> Prop) (sep : str) (xs : list str) :
  Forall P sep -> Forall (Forall P) xs -> Forall P (join sep xs).
Proof.
  intros Hsep. induction 1 as [|x xs Hx Hxs IH]; [constructor|].
  destruct xs as [|y ys]; [exact Hx|].
  change (join sep (x :: y :: ys)) with (x ++ sep ++ join sep (y :: ys)).
  rewrite !Forall_app. auto.
Qed.

(** What the tokens and the lemmas of a run are made of. *)
Lemma pipeline_plain (scan : str -> list event) (isdigit : N -> bool)
  (morph_parse : str -> list Parse) (files : list str) (env : Env) :
  (forall t, t ∈ tokens_list (aggregate isdigit morph_parse (collect scan files env)) ->
     Forall (fun c => c <> 0x0A /\ c <> 0x20) t) /\
  (forall l, l ∈ lemma_keys (aggregate isdigit morph_parse (collect scan files env)) ->
     Forall (fun c => c <> 0x0A /\ c <> 0x20) l /\
     lemma_toks (aggregate isdigit morph_parse (collect scan files env)) l <> [] /\
     forall t, t ∈ lemma_toks (aggregate isdigit morph_parse (collect scan files env)) l ->
               Forall (fun c => c <> 0x0A /\ c <> 0x20) t).
Proof.
  set (toks := collect scan files env).
  destruct (aggregate_inv isdigit morph_parse toks) as (Hset & Hmap & Hdom).
  assert (Htok : forall t, t ∈ toks -> Forall (fun c => c <> 0x0A /\ c <> 0x20) t).
  { intros t Ht. apply collect_elem in Ht as [text Ht].
    apply tokenize_wf in Ht as [_ Hall].
    eapply Forall_impl; [exact Hall|]. intros c. apply charmap_plain. }
  split.
  - intros t Ht. apply tokens_list_elem, Hset in Ht as [Ht _]. auto.
  - intros l Hl. apply lemma_keys_elem in Hl as [S E].
    destruct (Hmap l S E) as [Hne HS]. split; [|split].
    + apply set_choose_L in Hne as [t Ht]. apply HS in Ht as [_ Hacc].
      apply accept_Some in Hacc as [_ (p & ps & _ & _ & Hr & ->)].
      apply lemma_rejected_false in Hr as [_ Hall].
      eapply Forall_impl; [exact Hall|]. intros c. apply ru_char_plain.
    + intros Hnil. apply set_choose_L in Hne as [t Ht].
      apply (lemma_toks_elem _ _ _ t E) in Ht. rewrite Hnil in Ht. inversion Ht.
    + intros t Ht. apply (lemma_toks_elem _ _ _ t E), HS in Ht as [Ht _]. auto.
Qed.

(** X18. The two files can be read back: for the containers of a run,
    splitting the tokens file at the newlines gives the sorted tokens,
    followed by the empty string after the last newline; splitting the
    lemmas file at the newlines and each line at the spaces gives, line by
    line, the lemma followed by its sorted tokens. *)
Theorem X18_files_read_back
  (scan : str -> list event) (isdigit : N -> bool) (morph_parse : str -> list Parse)
  (files : list str) (env : Env) :
  split 0x0A (tokens_file (aggregate isdigit morph_parse (collect scan files env)))
  = tokens_list (aggregate isdigit morph_parse (collect scan files env)) ++ [[]] /\
  map (split 0x20)
      (split 0x0A (lemmas_file (aggregate isdigit morph_parse (collect scan files env))))
  = map (fun l => l :: lemma_toks (aggregate isdigit morph_parse (collect scan files env)) l)
        (lemma_keys (aggregate isdigit morph_parse (collect scan files env)))
    ++ [[[]]].
Proof.
  destruct (pipeline_plain scan isdigit morph_parse files env) as [Htok Hlem].
  set (st := aggregate isdigit morph_parse (collect scan files env)) in *.
  split.
  - unfold tokens_file. apply split_terminated.
    apply Forall_forall. intros t Ht. eapply Forall_impl; [apply (Htok t Ht)|].
    intros c [H _]. exact H.
  - unfold lemmas_file.
    assert (Hline : forall l, l ∈ lemma_keys st ->
              lemma_line st l = join [0x20] (l :: lemma_toks st l) ++ [0x0A] /\
              Forall (fun c => c <> 0x0A) (join [0x20] (l :: lemma_toks st l)) /\
              split 0x20 (join [0x20] (l :: lemma_toks st l)) = l :: lemma_toks st l).
    { intros l Hl. destruct (Hlem l Hl) as (Hl1 & Hne & Hts).
      assert (Hall : Forall (Forall (fun c => c <> 0x0A /\ c <> 0x20)) (l :: lemma_toks st l)).
      { constructor; [exact Hl1|]. apply Forall_forall. exact Hts. }
      split; [|split].
      - unfold lemma_line, SP, NL. destruct (lemma_toks st l) as [|y ys]; [contradiction|].
        change (join [0x20] (l :: y :: ys)) with (l ++ [0x20] ++ join [0x20] (y :: ys)).
        change (utf8 " ") with [0x20]. rewrite <- !app_assoc. reflexivity.
      - apply join_forall; [repeat constructor; discriminate|].
        eapply Forall_impl; [exact Hall|]. intros x Hx.
        eapply Forall_impl; [exact Hx|]. intros c [H _]. exact H.
      - apply split_join; [discriminate|].
        eapply Forall_impl; [exact Hall|]. intros x Hx.
        eapply Forall_impl; [exact Hx|]. intros c [_ H]. exact H. }
    assert (Hfile : concat (map (lemma_line st) (lemma_keys st)) =
              concat (map (fun x => x ++ [0x0A])
                          (map (fun l => join [0x20] (l :: lemma_toks st l)) (lemma_keys st)))).
    { f_equal. rewrite map_map. apply map_ext_in. intros l Hl.
      apply list_elem_of_In in Hl. apply (Hline l Hl). }
    rewrite Hfile, split_terminated.
    + rewrite map_app, map_map. f_equal. apply map_ext_in. intros l Hl.
      apply list_elem_of_In in Hl. apply (Hline l Hl).
    + apply Forall_forall. intros x Hx. apply list_elem_of_In, in_map_iff in Hx.
      destruct Hx as (l & <- & Hl). apply list_elem_of_In in Hl. apply (Hline l Hl).
Qed.

(** X19. The test of the lemma on line 128 does not see case, since the
    pattern is matched with IGNORECASE and the lemma is not lowercased: a
    lemma and its lowercase form are rejected or let through together. *)
Theorem X19_lemma_test_ignores_case (lemma : str) :
  lemma_rejected (lower lemma) = lemma_rejected lemma.
Proof.
  unfold lemma_rejected, RE_RU_WORD_fullmatch, len_ok, lower.
  rewrite length_map. f_equal. f_equal. f_equal.
  induction lemma as [|c lemma IH]; [reflexivity|].
  simpl. rewrite ru_char_tolower, IH. reflexivity.
Qed.
